(** * NATS client sample (samples/net/nats/src/nats.c)

    A shallow embedding of the protocol logic of the NATS client: the
    grammar validators, the outbound command builders, the inbound command
    handlers, the dispatcher and the receive callback, followed by the
    properties established about them.

    Conventions of the embedding.
    - A [char] is one byte.  A C object holding characters is a [list char];
      a pointer into it is the list of the bytes from the pointee onwards
      (so [p + n] is [drop n p]) or, where the code computes pointer
      differences, a [nat] offset into the enclosing object.  A pointer that
      may be NULL is an [option].
    - Reading at an index past the end of the list yields NUL: every object
      is taken to be followed by its terminator.  Writing is stdpp's list
      insert.  Where the code can write outside an array of known size
      (the 256-byte command buffer) the bound is checked explicitly and the
      run ends in [Fault].
    - [int] results are [Z]; [size_t] values used as indices and counts are
      [nat], values that are only converted or compared are [Z] with the
      wrap-around of the 32-bit target written out.
    - Effects are passed explicitly: a [world] records what was handed to
      the network stack and to the application, in order. *)

From Stdlib Require Import ZArith Lia Ascii String DecimalString.
From stdpp Require Import list.

Local Open Scope Z_scope.

(** ** Characters, C strings and the C library *)

Definition char := ascii.

#[global] Instance char_eq_dec : EqDecision char := ascii_dec.

Definition NUL : char := "000"%char.
Definition HT  : char := "009"%char.
Definition LF  : char := "010"%char.
Definition CR  : char := "013"%char.
Definition SP  : char := " "%char.

(** A string literal, without its terminator. *)
Definition lit (s : string) : list char := list_ascii_of_string s.

Definition CRLF : list char := [CR; LF].

Definition code (c : char) : Z := Z.of_nat (nat_of_ascii c).

(** [p[i]] *)
Definition rd (p : list char) (i : nat) : char := default NUL (p !! i).

(** The [n] bytes at [p], as a transfer of [n] bytes from [p] sees them. *)
Definition bytes_at (p : list char) (n : nat) : list char := map (rd p) (seq 0 n).

(** Errors of a run that the C semantics leaves undefined. *)
Inductive fault :=
| NullDeref
| OutOfBounds (index : nat).

Inductive outcome (A : Type) :=
| Ok (a : A)
| Fault (f : fault).
Arguments Ok {A} a.
Arguments Fault {A} f.

#[global] Instance outcome_ret : MRet outcome := fun _ a => Ok a.

#[global] Instance outcome_bind : MBind outcome := fun _ _ k m =>
  match m with
  | Ok a => k a
  | Fault f => Fault f
  end.

(** errno.h *)
Definition EPERM   : Z := 1.
Definition ENOENT  : Z := 2.
Definition ENOMEM  : Z := 12.
Definition EINVAL  : Z := 22.
Definition ERANGE  : Z := 34.
Definition ENOTSUP : Z := 35.

(** Modelled from the spec: the C library (ctype.h, string.h, stdlib.h) and
    [snprintk] (misc/printk.h) are not among the sources of the client.
    Their functions are given the meaning ISO C gives them, which is what
    the words of the specification refer to (alphanumeric, unsigned
    integer, decimal text); [unsigned long] and [size_t] are the 32-bit
    types of the target. *)
Module Libc.

(** ctype.h, "C" locale. *)
Definition isdigit (c : char) : bool := (48 <=? code c) && (code c <=? 57).
Definition isupper (c : char) : bool := (65 <=? code c) && (code c <=? 90).
Definition islower (c : char) : bool := (97 <=? code c) && (code c <=? 122).
Definition isalnum (c : char) : bool := isdigit c || isupper c || islower c.
Definition isspace (c : char) : bool :=
  (code c =? 32) || ((9 <=? code c) && (code c <=? 13)).

Fixpoint strlen (s : list char) : nat :=
  match s with
  | [] => 0%nat
  | c :: s' => if (c =? NUL)%char then 0%nat else S (strlen s')
  end.

(** [strchr(s, c)]: offset of the first [c] in the string, the terminator
    counting as part of it. *)
Fixpoint strchr (s : list char) (c : char) : option nat :=
  match s with
  | [] => if (c =? NUL)%char then Some 0%nat else None
  | x :: s' =>
      if (x =? c)%char then Some 0%nat
      else if (x =? NUL)%char then None
      else S <$> strchr s' c
  end.

(** [memchr(s, c, n)] *)
Fixpoint memchr (s : list char) (c : char) (n : nat) : option nat :=
  match n with
  | O => None
  | S n' =>
      if (rd s 0 =? c)%char then Some 0%nat
      else S <$> memchr (drop 1 s) c n'
  end.

(** [strncmp(a, b, n)]: zero, or the difference of the first pair of
    bytes that differ. *)
Fixpoint strncmp (a b : list char) (n : nat) : Z :=
  match n with
  | O => 0
  | S n' =>
      let x := rd a 0 in
      let y := rd b 0 in
      if (x =? y)%char
      then if (x =? NUL)%char then 0 else strncmp (drop 1 a) (drop 1 b) n'
      else code x - code y
  end.

Definition ULONG_MAX : Z := 2 ^ 32 - 1.

(** The digits of [strtoul] in base 10: the value accumulated so far, the
    number of digits consumed, and whether the value left the range. *)
Fixpoint digits (s : list char) (acc : Z) (any : nat) (over : bool)
  : Z * nat * bool :=
  match s with
  | c :: s' =>
      if isdigit c
      then let acc' := acc * 10 + (code c - 48) in
           digits s' acc' (S any) (over || (ULONG_MAX <? acc'))
      else (acc, any, over)
  | [] => (acc, any, over)
  end.

Fixpoint skip_space (s : list char) : nat :=
  match s with
  | c :: s' => if isspace c then S (skip_space s') else 0%nat
  | [] => 0%nat
  end.

(** [strtoul(s, &end, 10)]: the value, the offset of [end] from [s], and
    the value left in [errno] (0 when it is not set). *)
Definition strtoul (s : list char) : Z * nat * Z :=
  let ws := skip_space s in
  let s1 := drop ws s in
  let '(neg, sg) :=
    if (rd s1 0 =? "-")%char then (true, 1%nat)
    else if (rd s1 0 =? "+")%char then (false, 1%nat)
    else (false, 0%nat) in
  let '(v, n, over) := digits (drop sg s1) 0 0%nat false in
  match n with
  | O => (0, 0%nat, 0)
  | _ =>
      if over then (ULONG_MAX, (ws + sg + n)%nat, ERANGE)
      else ((if neg then (- v) mod 2 ^ 32 else v), (ws + sg + n)%nat, 0)
  end.

(** Modelled from the spec: [snprintk(buf, size, "%zu", n)] formats [n] as
    decimal text into a bounded buffer.  It answers with the number of
    characters the conversion needs, and the buffer of [size] bytes then
    holds as many of them as fit before its terminator. *)
Definition zu (n : nat) : list char :=
  lit (NilZero.string_of_uint (N.to_uint (N.of_nat n))).

Definition snprintk_zu (size : nat) (n : nat) : Z * list char :=
  (Z.of_nat (length (zu n)), take (size - 1) (zu n)).

End Libc.
Import Libc.

Definition sizeof_size_t : nat := 4.

(** ** Grammar validators *)

(** The loop of [is_subject_valid], with [n] iterations left before [pos]
    reaches [len]. *)
Fixpoint is_subject_valid_loop (subject : list char) (n pos : nat) (last : char)
  : bool :=
  match n with
  | O => true
  | S n' =>
      let c := rd subject pos in
      if (c =? ">")%char then
        if negb (rd subject (pos + 1) =? NUL)%char then false
        else is_subject_valid_loop subject n' (S pos) c
      else if ((c =? ".") || (c =? "*"))%char then
        if (last =? c)%char then false
        else is_subject_valid_loop subject n' (S pos) c
      else if isalnum c then is_subject_valid_loop subject n' (S pos) c
      else false
  end.

Definition is_subject_valid (subject : option (list char)) (len : nat) : bool :=
  match subject with
  | None => false
  | Some s => is_subject_valid_loop s len 0 NUL
  end.

Fixpoint is_sid_valid_loop (sid : list char) (n pos : nat) : bool :=
  match n with
  | O => true
  | S n' =>
      if negb (isalnum (rd sid pos)) then false
      else is_sid_valid_loop sid n' (S pos)
  end.

Definition is_sid_valid (sid : option (list char)) (len : nat) : bool :=
  match sid with
  | None => false
  | Some s => is_sid_valid_loop s len 0
  end.

(** ** The network stack, as the client sees it *)

(** A buffer being filled for transmission: the segments appended so far. *)
Definition tx_buf := list (list char).

(** What the stack answers to the three calls [transmitv] makes:
    [net_nbuf_get_tx], [net_nbuf_append] and [net_context_send]. *)
Record net_context := NetContext {
  nbuf_get_tx  : bool;
  nbuf_append  : tx_buf -> list char -> bool;
  context_send : tx_buf -> Z
}.

Record io_vec := IoVec {
  base : option (list char);
  len  : nat
}.

(** [struct nats_msg]: its pointers, into the command buffer. *)
Record nats_msg := NatsMsg {
  subject     : list char;
  sid         : option (list char);
  reply_to    : option (list char);
  payload     : list char;
  payload_len : Z
}.

(** [struct nats].  [on_auth_required] receives the capacities of the two
    credential buffers and answers with its result and what it stored. *)
Record nats := Nats {
  conn             : net_context;
  on_auth_required : option (nat -> nat -> Z * list char * list char);
  on_message       : nats_msg -> Z
}.

(** Everything the client handed over: the buffers given to
    [net_context_send] and the messages given to [on_message]. *)
Record world := World {
  sent      : list tx_buf;
  delivered : list nats_msg
}.

Definition send (b : tx_buf) (w : world) : world :=
  World (sent w ++ [b]) (delivered w).

Definition deliver (m : nats_msg) (w : world) : world :=
  World (sent w) (delivered w ++ [m]).

(** The bytes on the wire of one transmission. *)
Definition wire (b : tx_buf) : list char := concat b.

Definition TRANSMITV_LITERAL (s : list char) : io_vec :=
  IoVec (Some s) (length s).

(** The bytes [net_nbuf_append] copies for one segment. *)
Definition iov_bytes (v : io_vec) : outcome (list char) :=
  match base v with
  | Some p => Ok (bytes_at p (len v))
  | None => if len v is O then Ok [] else Fault NullDeref
  end.

Fixpoint transmitv_loop (c : net_context) (buf : tx_buf) (iov : list io_vec)
  : outcome (option tx_buf) :=
  match iov with
  | [] => Ok (Some buf)
  | v :: iov' =>
      data ← iov_bytes v;
      if nbuf_append c buf data then transmitv_loop c (buf ++ [data]) iov'
      else Ok None
  end.

Definition transmitv (c : net_context) (iov : list io_vec) (w : world)
  : outcome (Z * world) :=
  if negb (nbuf_get_tx c) then Ok (- ENOMEM, w)
  else
    r ← transmitv_loop c [] iov;
    match r with
    | None => Ok (- ENOMEM, w)
    | Some buf => Ok (context_send c buf, send buf w)
    end.

Definition transmit (c : net_context) (buffer : list char) (n : nat) (w : world)
  : outcome (Z * world) :=
  transmitv c [IoVec (Some buffer) n] w.

(** ** Outbound command builders *)

Definition strlen_p (p : option (list char)) : outcome nat :=
  match p with
  | Some s => Ok (strlen s)
  | None => Fault NullDeref
  end.

(** [n ? n : strlen(p)] *)
Definition len_or_strlen (p : option (list char)) (n : nat) : outcome nat :=
  if n is O then strlen_p p else Ok n.

Definition nats_subscribe (n : nats)
    (subject : option (list char)) (subject_len : nat)
    (queue_group : option (list char)) (queue_group_len : nat)
    (sid : option (list char)) (sid_len : nat) (w : world)
  : outcome (Z * world) :=
  if negb (is_subject_valid subject subject_len) then Ok (- EINVAL, w)
  else if negb (is_sid_valid sid sid_len) then Ok (- EINVAL, w)
  else
    match queue_group with
    | Some _ =>
        sl ← len_or_strlen subject subject_len;
        ql ← len_or_strlen queue_group queue_group_len;
        il ← len_or_strlen sid sid_len;
        transmitv (conn n)
          [ TRANSMITV_LITERAL (lit "SUB ");
            IoVec subject sl;
            TRANSMITV_LITERAL (lit " ");
            IoVec queue_group ql;
            TRANSMITV_LITERAL (lit " ");
            IoVec sid il;
            TRANSMITV_LITERAL CRLF ] w
    | None =>
        sl ← len_or_strlen subject subject_len;
        il ← len_or_strlen sid sid_len;
        transmitv (conn n)
          [ TRANSMITV_LITERAL (lit "SUB ");
            IoVec subject sl;
            TRANSMITV_LITERAL (lit " ");
            IoVec sid il;
            TRANSMITV_LITERAL CRLF ] w
    end.

Definition nats_unsubscribe (n : nats)
    (sid : option (list char)) (sid_len : nat) (max_msgs : nat) (w : world)
  : outcome (Z * world) :=
  if negb (is_sid_valid sid sid_len) then Ok (- EINVAL, w)
  else if negb (max_msgs =? 0)%nat then
    let size := (3 * sizeof_size_t)%nat in
    let '(ret, max_msgs_str) := snprintk_zu size max_msgs in
    if (ret <? 0) || (ret >=? Z.of_nat size) then Ok (- ENOMEM, w)
    else
      il ← len_or_strlen sid sid_len;
      transmitv (conn n)
        [ TRANSMITV_LITERAL (lit "UNSUB ");
          IoVec sid il;
          TRANSMITV_LITERAL (lit " ");
          IoVec (Some max_msgs_str) (Z.to_nat ret);
          TRANSMITV_LITERAL CRLF ] w
  else
    il ← len_or_strlen sid sid_len;
    transmitv (conn n)
      [ TRANSMITV_LITERAL (lit "UNSUB ");
        IoVec sid il;
        TRANSMITV_LITERAL CRLF ] w.

(** [payload] and its bytes are parameters of the function and are kept as
    such; the body never reads them. *)
Definition nats_publish (n : nats)
    (subject : option (list char)) (subject_len : nat)
    (reply_to : option (list char)) (reply_to_len : nat)
    (payload : option (list char)) (payload_len : nat) (w : world)
  : outcome (Z * world) :=
  if negb (is_subject_valid subject subject_len) then Ok (- EINVAL, w)
  else
    let size := (3 * sizeof_size_t)%nat in
    let '(ret, payload_len_str) := snprintk_zu size payload_len in
    if (ret <? 0) || (ret >=? Z.of_nat size) then Ok (- ENOMEM, w)
    else
      match reply_to with
      | Some _ =>
          sl ← len_or_strlen subject subject_len;
          rl ← len_or_strlen reply_to reply_to_len;
          transmitv (conn n)
            [ TRANSMITV_LITERAL (lit "PUB ");
              IoVec subject sl;
              TRANSMITV_LITERAL (lit " ");
              IoVec reply_to rl;
              TRANSMITV_LITERAL (lit " ");
              IoVec (Some payload_len_str) (Z.to_nat ret);
              TRANSMITV_LITERAL CRLF ] w
      | None =>
          sl ← len_or_strlen subject subject_len;
          rl ← len_or_strlen reply_to reply_to_len;
          transmitv (conn n)
            [ TRANSMITV_LITERAL (lit "PUB ");
              IoVec subject sl;
              TRANSMITV_LITERAL (lit " ");
              IoVec reply_to rl;
              TRANSMITV_LITERAL CRLF ] w
      end.

(** ** Inbound command handlers *)

Record nats_info := NatsInfo {
  server_id     : option (list char);
  version       : option (list char);
  go            : option (list char);
  host          : option (list char);
  max_payload   : nat;
  port          : Z;
  ssl_required  : bool;
  auth_required : bool
}.

(** The JSON library (json.h), which is not part of the client.
    [json_obj_parse] is given the [len] bytes of the payload, with the
    descriptor table of [struct nats_info] fixed, and answers with its result
    and the decoded structure; [json_escape] is given the string and the
    size of its buffer and answers with its result and the escaped string. *)
Class Json := {
  json_obj_parse : list char -> Z * nats_info;
  json_escape    : list char -> nat -> Z * list char
}.

Definition DQ : char := "034"%char.

(** A handler is given the payload and its length, and leaves the payload
    as it has rewritten it. *)
Definition handler : Type :=
  nats -> list char -> nat -> world -> outcome (Z * list char * world).

Definition with_payload (p : list char) (r : outcome (Z * world))
  : outcome (Z * list char * world) :=
  '(ret, w) ← r; Ok (ret, p, w).

Definition handle_server_info `{Json} : handler := fun n payload len w =>
  with_payload payload (
    let '(ret, info) := json_obj_parse (bytes_at payload len) in
    if ret <? 0 then Ok (- EINVAL, w)
    else if ssl_required info then Ok (- ENOTSUP, w)
    else if negb (auth_required info) then Ok (0, w)
    else
      match on_auth_required n with
      | None => Ok (- EPERM, w)
      | Some provide =>
          let '(ret, user, pass) := provide 32%nat 64%nat in
          if ret <? 0 then Ok (ret, w)
          else
            let '(ret, user) := json_escape user 32%nat in
            if ret <? 0 then Ok (ret, w)
            else
              let '(ret, pass) := json_escape pass 64%nat in
              if ret <? 0 then Ok (ret, w)
              else
                transmitv (conn n)
                  [ TRANSMITV_LITERAL (lit "CONNECT {" ++ [DQ] ++ lit "user"
                                         ++ [DQ] ++ lit ":" ++ [DQ]);
                    IoVec (Some user) (length user);
                    TRANSMITV_LITERAL ([DQ] ++ lit "," ++ [DQ] ++ lit "pass"
                                         ++ [DQ] ++ lit ":" ++ [DQ]);
                    IoVec (Some pass) (length pass);
                    TRANSMITV_LITERAL ([DQ] ++ lit "}" ++ CRLF) ] w
      end).

Definition char_in_set (chr : char) (set : list char) : bool :=
  existsb (fun c => (c =? chr)%char) set.

(** The inner loop of [strsep]: how far [ptr] moves over [s]. *)
Fixpoint strsep_skip (delims : list char) (s : list char) : nat :=
  match s with
  | c :: s' =>
      if (c =? NUL)%char then 0%nat
      else if negb (char_in_set c delims) then 0%nat
      else S (strsep_skip delims s')
  | [] => 0%nat
  end.

(** The outer loop of [strsep] over the delimiters still to try.  [mem] is
    the object [strp] points into, at offset [strp]. *)
Fixpoint strsep_loop (mem : list char) (strp : nat) (todo delims : list char)
  : option nat * list char :=
  match todo with
  | [] => (None, mem)
  | delim :: todo' =>
      match strchr (drop strp mem) delim with
      | Some i =>
          let ptr := (strp + i)%nat in
          let mem' := <[ptr := NUL]> mem in
          (Some (S ptr + strsep_skip delims (drop (S ptr) mem'))%nat, mem')
      | None => strsep_loop mem strp todo' delims
      end
  end.

(** The file's own [strsep]: it returns the rest of the string, not the
    token, and cuts at the first delimiter of [delims] that occurs at all. *)
Definition strsep (mem : list char) (strp : option nat) (delims : list char)
  : option nat * list char :=
  match strp with
  | None => (None, mem)
  | Some p => strsep_loop mem p delims delims
  end.

(** [strtoul] always sets [end_ptr], so the test for a null [end_ptr] has
    no case of its own.  The comparison of [payload_size] with the pointer
    difference is made at the unsigned 32-bit type. *)
Definition handle_server_msg : handler := fun n payload len w =>
  let prev_end := rd payload len in
  let m := <[len := NUL]> payload in
  let '(sid, m) := strsep m (Some 0%nat) [SP; HT] in
  let '(reply_to, m) := strsep m sid [SP; HT] in
  let '(bytes, m) :=
    match reply_to with
    | None => strsep m sid [CR]
    | Some _ => strsep m reply_to [CR]
    end in
  let m := <[len := prev_end]> m in
  match bytes with
  | None => Ok (- EINVAL, m, w)
  | Some b =>
      let '(payload_size, e, errno) := strtoul (drop b m) in
      let end_ptr := (b + e)%nat in
      if negb (errno =? 0) then Ok (- errno, m, w)
      else if payload_size >=? (Z.of_nat len - Z.of_nat end_ptr) mod 2 ^ 32
      then Ok (- EINVAL, m, w)
      else
        let msg :=
          NatsMsg m ((fun o => drop o m) <$> sid)
                  ((fun o => drop o m) <$> reply_to)
                  (drop (end_ptr + 2) m) payload_size in
        Ok (on_message n msg, m, deliver msg w)
  end.

Definition handle_server_ping : handler := fun n payload len w =>
  let pong := lit "PONG" ++ CRLF in
  with_payload payload (transmit (conn n) pong (length pong) w).

Definition ignore : handler := fun n payload len w => Ok (0, payload, w).

(** ** Command dispatcher *)

Definition CMD (cmd_ : string) (handler_ : handler) : list char * nat * handler :=
  (lit cmd_, length (lit cmd_), handler_).

Definition cmds `{Json} : list (list char * nat * handler) :=
  [ CMD "INFO" handle_server_info;
    CMD "MSG"  handle_server_msg;
    CMD "PING" handle_server_ping;
    CMD "+OK"  ignore;
    CMD "-ERR" ignore ].

(** The table loop of [handle_server_cmd]: the handler it would call. *)
Fixpoint cmds_find (table : list (list char * nat * handler))
    (cmd : list char) (len : nat) : option handler :=
  match table with
  | [] => None
  | (op, op_len, handle) :: table' =>
      if negb (len =? op_len)%nat then cmds_find table' cmd len
      else if strncmp op cmd len =? 0 then Some handle
      else cmds_find table' cmd len
  end.

(** [cmd] is the object the command is in, and the pointer to it.  The
    result carries the object as the call leaves it. *)
Definition handle_server_cmd `{Json} (n : nats) (cmd : list char) (len : nat)
    (w : world) : outcome (Z * list char * world) :=
  let '(payload, m) := strsep cmd (Some 0%nat) [SP; HT] in
  let '(payload, m) :=
    match payload with
    | Some _ => (payload, m)
    | None => strsep m (Some 0%nat) [CR]
    end in
  match payload with
  | None => Ok (- EINVAL, m, w)
  | Some p =>
      let payload_len := Z.to_nat ((Z.of_nat len - Z.of_nat p) mod 2 ^ 32) in
      let len := p in
      match cmds_find cmds m len with
      | Some handle =>
          '(ret, payload', w') ← handle n (drop p m) payload_len w;
          Ok (ret, take p m ++ payload', w')
      | None => Ok (- ENOENT, m, w)
      end
  end.

(** ** Receive path *)

(** A received [net_buf]: the data of its chain of fragments, and where
    the application data starts in the first one
    ([net_nbuf_appdata(buf) - buf->frags->data]).  The loop below follows
    the code for buffers whose application data starts inside the first
    fragment and whose fragments have 16-bit lengths; the statements about
    it say so where they depend on it. *)
Record net_buf := NetBuf {
  frags   : list (list char);
  appdata : nat
}.

(** A position in a chain: the fragments from the current one on (none
    for NULL) and the offset in the current one. *)
Definition cursor : Type := list (list char) * nat.

(** Modelled from the spec: [net_nbuf_read] belongs to the network stack
    (net/nbuf.h), which is not among the sources of the client; the spec
    names the transport only as the supplier of the delivered bytes.  It is
    modelled by its contract: from [offset] in fragment [tmp] it copies [len]
    bytes out, following the chain, and answers with the fragment and offset
    of the byte after the last one read, the next fragment at offset 0 when
    that byte starts it, NULL when the chain is used up (the offset that
    comes with NULL is not used by the client and is given as 0). *)
Fixpoint nbuf_adjust (tmp : list (list char)) (offset : nat) : cursor :=
  match tmp with
  | [] => ([], 0%nat)
  | f :: rest =>
      if (offset =? length f)%nat then (rest, 0%nat)
      else if (offset <? length f)%nat then (f :: rest, offset)
      else nbuf_adjust rest (offset - length f)
  end.

Fixpoint net_nbuf_read (tmp : list (list char)) (offset len : nat)
  : list char * cursor :=
  match nbuf_adjust tmp offset with
  | ([], pos) => ([], ([], pos))
  | (f :: rest, pos) =>
      match len with
      | O => ([], (f :: rest, pos))
      | S len' =>
          let '(data, cur) := net_nbuf_read (f :: rest) (S pos) len' in
          (rd f pos :: data, cur)
      end
  end.

Definition sizeof_cmd_buf : nat := 256.

(** [memcpy(cmd_buf + cmd_len, data, |data|)] *)
Fixpoint store (buf : list char) (at_ : nat) (data : list char) : list char :=
  match data with
  | [] => buf
  | c :: data' => store (<[at_ := c]> buf) (S at_) data'
  end.

(** How the [while] loop of [receive_cb] was left. *)
Inductive loop_exit :=
| Drained      (* [tmp] became NULL *)
| TooLong      (* [cmd_len + len > sizeof(cmd_buf)] *)
| Rejected     (* [handle_server_cmd] answered a negative value *)
| OutOfFuel.

Section Receive.

(** The dispatcher [receive_cb] calls for each line, [handle_server_cmd]
    in the client. *)
Variable handle_cmd :
  nats -> list char -> nat -> world -> outcome (Z * list char * world).

(** The [while (tmp)] loop.  [tmp] is the chain from the current fragment
    on, [log] the lines given to the dispatcher so far (kept for the
    statements below; the code has no such record). *)
Fixpoint receive_loop (fuel : nat) (n : nats) (tmp : list (list char))
    (pos : nat) (cmd_buf : list char) (cmd_len : nat)
    (log : list (list char)) (w : world)
  : outcome (loop_exit * list (list char) * world) :=
  match tmp, fuel with
  | [], _ => Ok (Drained, log, w)
  | _ :: _, O => Ok (OutOfFuel, log, w)
  | f :: _, S fuel' =>
      let len := Z.to_nat ((Z.of_nat (length f) - Z.of_nat pos) mod 2 ^ 32) in
      let end_of_line := memchr (drop pos f) CR len in
      let len := match end_of_line with Some i => i | None => len end in
      if (sizeof_cmd_buf <? cmd_len + len)%nat then Ok (TooLong, log, w)
      else
        let '(data, (tmp, pos)) := net_nbuf_read tmp pos len in
        let cmd_buf := store cmd_buf cmd_len data in
        let cmd_len := Z.to_nat (Z.of_nat (cmd_len + len) mod 2 ^ 16) in
        match end_of_line with
        | Some _ =>
            let '(tmp, pos) :=
              match tmp with
              | [] => (tmp, pos)
              | _ :: _ => snd (net_nbuf_read tmp pos 1)
              end in
            if (sizeof_cmd_buf <=? cmd_len)%nat
            then Fault (OutOfBounds cmd_len)
            else
              let cmd_buf := <[cmd_len := NUL]> cmd_buf in
              let log := log ++ [take cmd_len cmd_buf] in
              '(ret, cmd_buf, w) ← handle_cmd n cmd_buf cmd_len w;
              if ret <? 0 then Ok (Rejected, log, w)
              else receive_loop fuel' n tmp pos cmd_buf 0 log w
        | None => receive_loop fuel' n tmp pos cmd_buf cmd_len log w
        end
  end.

(** Every turn of the loop that does not leave it uses up a byte or a
    fragment of the chain. *)
Definition receive_fuel (tmp : list (list char)) : nat :=
  S (length (concat tmp) + length tmp).

(** The body of [receive_cb] with everything it computed.  [stack] is what
    the 256 bytes of [cmd_buf] hold when the function is entered. *)
Definition receive_run (n : nats) (stack : list char) (buf : option net_buf)
    (status : Z) (w : world)
  : outcome (loop_exit * list (list char) * world) :=
  match buf with
  | None => Ok (Drained, [], w)
  | Some b =>
      if negb (status =? 0) then Ok (Drained, [], w)
      else
        match frags b with
        | [] => Fault NullDeref
        | tmp =>
            receive_loop (receive_fuel tmp) n tmp (appdata b)
              (resize sizeof_cmd_buf NUL stack) 0 [] w
        end
  end.

End Receive.

(** [receive_cb] returns nothing: what it leaves is the world. *)
Definition receive_cb `{Json} (n : nats) (stack : list char)
    (buf : option net_buf) (status : Z) (w : world) : outcome world :=
  '(_, _, w') ← receive_run handle_server_cmd n stack buf status w; Ok w'.

(** A sequence of deliveries, each one call of [receive_cb] with its own
    fresh [cmd_buf]. *)
Fixpoint receive_all `{Json} (n : nats) (stack : list char)
    (deliveries : list net_buf) (w : world) : outcome world :=
  match deliveries with
  | [] => Ok w
  | b :: rest =>
      w' ← receive_cb n stack (Some b) 0 w;
      receive_all n stack rest w'
  end.

(** ** Vocabulary of the statements *)

(** The characters of the C string at [p]. *)
Definition cstr (p : list char) : list char := take (strlen p) p.

(** The bytes a builder sends for an argument given as pointer and length:
    [n] bytes, or the whole string when [n] is 0. *)
Definition arg_bytes (p : list char) (n : nat) : list char :=
  bytes_at p (if n is O then strlen p else n).

(** A network stack that has a buffer and room for every segment. *)
Definition accepting (c : net_context) : Prop :=
  nbuf_get_tx c = true /\ forall b d, nbuf_append c b d = true.

(** The validator of the specification takes the subject alone: it is
    [is_subject_valid] at the length of the string. *)
Definition validate_subject (subject : option (list char)) : bool :=
  is_subject_valid subject (from_option strlen 0%nat subject).

(** The subject grammar, in the words of the specification: every
    character is alphanumeric or one of [.], [*], [>]; no delimiter or
    wildcard character is followed by itself; [>] is only the last
    character. *)
Definition wildcard (c : char) : Prop :=
  c = "."%char \/ c = "*"%char \/ c = ">"%char.

Definition subject_char (c : char) : Prop :=
  isalnum c = true \/ wildcard c.

Definition subject_grammar (s : list char) : Prop :=
  Forall subject_char s /\
  (forall i c, s !! i = Some c -> s !! S i = Some c -> ~ wildcard c) /\
  (forall i, s !! i = Some ">"%char -> S i = length s).

(** The same check by recursion on the string, [last] being the character
    before it. *)
Fixpoint subject_ok (last : char) (s : list char) : bool :=
  match s with
  | [] => true
  | c :: s' =>
      (if (c =? ">")%char then (rd s' 0 =? NUL)%char
       else if ((c =? ".") || (c =? "*"))%char then negb (last =? c)%char
       else isalnum c)
      && subject_ok c s'
  end.

(** The recursive check against the grammar, [last] being part of the
    adjacency condition. *)
Definition grammar_after (last : char) (s : list char) : Prop :=
  Forall subject_char s /\
  (forall i c, (last :: s) !! i = Some c -> (last :: s) !! S i = Some c ->
               c <> "."%char /\ c <> "*"%char) /\
  (forall i, s !! i = Some ">"%char -> S i = length s).







(** The operations of a table are strings of the length the table gives. *)
Definition well_formed_table (table : list (list char * nat * handler)) : Prop :=
  Forall (fun e => forall i, (i < e.1.2)%nat -> rd e.1.1 i <> NUL) table.

(** The length one turn of the loop of [receive_cb] works with: up to the
    carriage return, or the rest of the fragment. *)
Definition turn_len (f : list char) (pos : nat) : nat :=
  match memchr (drop pos f) CR (length f - pos) with
  | Some i => i
  | None => (length f - pos)%nat
  end.

(** Fragment lengths are 16-bit. *)
Definition short_frags (tmp : list (list char)) : Prop :=
  Forall (fun f => Z.of_nat (length f) < 2 ^ 16) tmp.

(** A dispatcher keeps the size of the command buffer. *)
Definition keeps_length
    (handle_cmd : nats -> list char -> nat -> world
                  -> outcome (Z * list char * world)) : Prop :=
  forall n cmd len w ret cmd' w',
    handle_cmd n cmd len w = Ok (ret, cmd', w') -> length cmd' = length cmd.

(** [m] is the unit [payload] of [len] bytes as a handler has it while it
    slices it: terminated at [len], and with NUL in place of some bytes. *)
Definition sliced (payload : list char) (len : nat) (m : list char) : Prop :=
  rd m len = NUL /\ forall j, rd m j = NUL \/ rd m j = rd payload j.

(** The application data of a delivery, as one sequence of bytes. *)
Definition stream (b : net_buf) : list char :=
  drop (appdata b) (concat (frags b)).

(** The lines of a stream that a carriage return ends, without it; [cur] is
    the part of the current line already seen. *)
Fixpoint cr_lines (cur : list char) (s : list char) : list (list char) :=
  match s with
  | [] => []
  | c :: s' =>
      if (c =? CR)%char then cur :: cr_lines [] s'
      else cr_lines (cur ++ [c]) s'
  end.

(** ** Sample collaborators, for running the client on concrete inputs *)

Module Sample.

(** A stack that sends everything and reports success. *)
Definition net_up : net_context :=
  NetContext true (fun _ _ => true) (fun _ => 0).

Fixpoint has_infix (pat s : list char) : bool :=
  match s with
  | [] => bool_decide (pat = [])
  | _ :: s' => bool_decide (take (length pat) s = pat) || has_infix pat s'
  end.

Definition flag_true (name : string) : list char :=
  [DQ] ++ lit name ++ [DQ] ++ lit ":true".

Definition escape_char (c : char) : list char :=
  if ((c =? DQ) || (c =? "\"))%char then ["\"%char; c] else [c].

(** A decoder that looks only for the two flags, and an escaper for
    quotes and backslashes that fails when the result does not fit. *)
#[export] Instance json : Json := {|
  json_obj_parse p :=
    if (rd p 0 =? "{")%char
    then (0, NatsInfo None None None None 0 0
                      (has_infix (flag_true "ssl_required") p)
                      (has_infix (flag_true "auth_required") p))
    else (- EINVAL, NatsInfo None None None None 0 0 false false);
  json_escape s size :=
    let e := concat (map escape_char s) in
    if (length e <? size)%nat then (0, e) else (- ENOMEM, s)
|}.

Definition credentials (user pass : string) (_ _ : nat)
  : Z * list char * list char := (0, lit user, lit pass).

Definition client : nats :=
  Nats net_up (Some (credentials "a" "b")) (fun _ => 0).

Definition idle : world := World [] [].

Definition ping : list char := lit "PING" ++ CRLF.

End Sample.

(** * Properties *)

(** ** Reading C objects *)

Lemma rd_nil i : rd [] i = NUL.
Proof. reflexivity. Qed.

Lemma rd_cons_0 c s : rd (c :: s) 0 = c.
Proof. reflexivity. Qed.

Lemma rd_cons_S c s i : rd (c :: s) (S i) = rd s i.
Proof. reflexivity. Qed.

Lemma rd_lookup s i c : s !! i = Some c -> rd s i = c.
Proof. unfold rd. intros ->. reflexivity. Qed.

Lemma rd_drop s k i : rd (drop k s) i = rd s (k + i).
Proof. unfold rd. rewrite lookup_drop. reflexivity. Qed.

Lemma strlen_le s : (strlen s <= length s)%nat.
Proof.
  induction s as [|c s IH]; simpl; [lia|].
  destruct (c =? NUL)%char; simpl; lia.
Qed.

Lemma rd_strlen s : rd s (strlen s) = NUL.
Proof.
  induction s as [|c s IH]; simpl; [reflexivity|].
  destruct (Ascii.eqb_spec c NUL) as [->|]; [reflexivity|].
  exact IH.
Qed.

Lemma bytes_at_take s n : (n <= length s)%nat -> bytes_at s n = take n s.
Proof.
  revert n. unfold bytes_at.
  induction s as [|c s IH]; intros [|n] Hn; simpl in *; try reflexivity; try lia.
  f_equal. rewrite <- seq_shift, map_map.
  rewrite <- (IH n) by lia. reflexivity.
Qed.

Lemma bytes_at_strlen s : bytes_at s (strlen s) = cstr s.
Proof. apply bytes_at_take, strlen_le. Qed.

(** ** Grammar validators *)

Lemma is_subject_valid_loop_ok mem :
  forall n pos last,
    (pos + n <= length mem)%nat ->
    rd mem (pos + n) = NUL ->
    is_subject_valid_loop mem n pos last = subject_ok last (take n (drop pos mem)).
Proof.
  induction n as [|n IH]; intros pos last Hlen Hend; [reflexivity|].
  assert (Hpos : (pos < length mem)%nat) by lia.
  apply lookup_lt_is_Some_2 in Hpos as [c Hc].
  rewrite (drop_S _ _ _ Hc). cbn [take subject_ok is_subject_valid_loop].
  rewrite (rd_lookup _ _ _ Hc).
  assert (Hnext : rd (take n (drop (S pos) mem)) 0 = rd mem (pos + 1)).
  { destruct n as [|n].
    - rewrite take_0, rd_nil. rewrite <- Hend. reflexivity.
    - unfold rd. rewrite lookup_take_lt by lia.
      rewrite lookup_drop. do 2 f_equal. lia. }
  rewrite Hnext, IH by (try lia; rewrite <- Hend; f_equal; lia).
  destruct (c =? ">")%char.
  - destruct (rd mem (pos + 1) =? NUL)%char; reflexivity.
  - destruct ((c =? ".") || (c =? "*"))%char.
    + destruct (last =? c)%char; reflexivity.
    + destruct (isalnum c); reflexivity.
Qed.

Lemma validate_subject_ok s :
  validate_subject (Some s) = subject_ok NUL (cstr s).
Proof.
  unfold validate_subject, is_subject_valid, cstr; simpl.
  rewrite is_subject_valid_loop_ok.
  - rewrite drop_0. reflexivity.
  - pose proof (strlen_le s). lia.
  - apply rd_strlen.
Qed.

Lemma subject_ok_grammar_after s :
  forall last, subject_ok last s = true <-> grammar_after last s.
Proof.
  induction s as [|c s IH]; intros last.
  { split; [|reflexivity]. intros _. split; [constructor|]. split.
    - intros [|i] x H1 H2; discriminate.
    - intros i Hi. discriminate. }
  cbn [subject_ok]. rewrite andb_true_iff, IH. unfold grammar_after.
  split.
  - intros [Hc (Hall & Hadj & Hgt)]. split; [|split].
    + constructor; [|exact Hall]. unfold subject_char, wildcard.
      destruct (Ascii.eqb_spec c ">"); [tauto|].
      destruct (Ascii.eqb_spec c "."); [tauto|].
      destruct (Ascii.eqb_spec c "*"); [tauto|]. left. exact Hc.
    + intros [|i] x H1 H2.
      * simpl in H1, H2. injection H1 as <-. injection H2 as E. subst last.
        destruct (Ascii.eqb_spec c ">") as [->|]; [split; discriminate|].
        destruct (Ascii.eqb_spec c ".") as [->|];
          [rewrite Ascii.eqb_refl in Hc; discriminate|].
        destruct (Ascii.eqb_spec c "*") as [->|];
          [rewrite Ascii.eqb_refl in Hc; discriminate|].
        split; assumption.
      * exact (Hadj i x H1 H2).
    + intros [|i] Hi.
      * simpl in Hi. injection Hi as ->. simpl in Hc.
        destruct s as [|d s]; [reflexivity|].
        rewrite rd_cons_0 in Hc. apply Ascii.eqb_eq in Hc. subst d.
        inversion Hall as [|? ? Hd _]. destruct Hd as [Hd|[Hd|[Hd|Hd]]];
          discriminate.
      * simpl. f_equal. apply Hgt. exact Hi.
  - intros (Hall & Hadj & Hgt). inversion Hall as [|? ? Hc Hall']; subst.
    split; [|split; [exact Hall'|split]].
    + destruct (Ascii.eqb_spec c ">") as [->|Hn1].
      * specialize (Hgt 0%nat eq_refl). destruct s; [reflexivity|discriminate].
      * destruct (Ascii.eqb_spec c ".") as [->|Hn2].
        { simpl. apply negb_true_iff, Ascii.eqb_neq. intros ->.
          destruct (Hadj 0%nat "."%char eq_refl eq_refl) as [E _]. now apply E. }
        destruct (Ascii.eqb_spec c "*") as [->|Hn3].
        { simpl. apply negb_true_iff, Ascii.eqb_neq. intros ->.
          destruct (Hadj 0%nat "*"%char eq_refl eq_refl) as [_ E]. now apply E. }
        simpl. destruct Hc as [Hc|[Hc|[Hc|Hc]]]; congruence.
    + intros i x H1 H2. exact (Hadj (S i) x H1 H2).
    + intros i Hi. specialize (Hgt (S i) Hi). simpl in Hgt. lia.
Qed.

Lemma grammar_after_NUL s : grammar_after NUL s <-> subject_grammar s.
Proof.
  unfold grammar_after, subject_grammar. split.
  - intros (Hall & Hadj & Hgt). split; [exact Hall|]. split; [|exact Hgt].
    intros i c H1 H2 [ -> | [ -> | -> ] ].
    + destruct (Hadj (S i) "."%char H1 H2) as [E _]. now apply E.
    + destruct (Hadj (S i) "*"%char H1 H2) as [_ E]. now apply E.
    + specialize (Hgt i H1). apply lookup_lt_Some in H2. lia.
  - intros (Hall & Hadj & Hgt). split; [exact Hall|]. split; [|exact Hgt].
    intros [|i] c H1 H2.
    + simpl in H1. injection H1 as <-. split; discriminate.
    + split; intros ->; apply (Hadj i _ H1 H2); unfold wildcard; tauto.
Qed.

(** C7 (as amended).  [validate_subject] accepts exactly the non-null
    subjects in which every character is alphanumeric or one of [.], [*],
    [>], no delimiter or wildcard character is followed by itself, and [>]
    is only the last character; the listed subjects are judged as the
    specification lists them, a null subject is refused, and the empty
    subject is accepted. *)
Theorem validate_subject_grammar :
  (forall s, validate_subject (Some s) = true <-> subject_grammar (cstr s)) /\
  validate_subject None = false /\
  validate_subject (Some (lit "foo.bar")) = true /\
  validate_subject (Some (lit "foo..bar")) = false /\
  validate_subject (Some (lit "foo.>")) = true /\
  validate_subject (Some (lit "foo.>.bar")) = false /\
  validate_subject (Some (lit "*.foo")) = true /\
  validate_subject (Some (lit "**")) = false /\
  validate_subject (Some []) = true.
Proof.
  split.
  - intros s. rewrite validate_subject_ok, subject_ok_grammar_after.
    apply grammar_after_NUL.
  - repeat split; reflexivity.
Qed.

(** C7, counterexample.  The empty subject is not refused. *)
Lemma empty_subject_is_accepted :
  validate_subject (Some []) = true /\ is_subject_valid (Some []) 0 = true.
Proof. split; reflexivity. Qed.

(** ** Outbound command builders *)


Lemma transmitv_loop_accepting c iov :
  (forall b d, nbuf_append c b d = true) ->
  forall buf segs,
    mapM (M := outcome) iov_bytes iov = Ok segs ->
    transmitv_loop c buf iov = Ok (Some (buf ++ segs)).
Proof.
  intros Happ. induction iov as [|v iov IH]; intros buf segs.
  - cbn. intros [= <-]. rewrite app_nil_r. reflexivity.
  - cbn. destruct (iov_bytes v) as [d|f]; cbn; [|discriminate].
    destruct (mapM iov_bytes iov) as [ds|f] eqn:E; cbn; [|discriminate].
    intros [= <-]. rewrite Happ, (IH _ ds eq_refl), <- app_assoc. reflexivity.
Qed.

Lemma transmitv_accepting c iov segs w :
  accepting c ->
  mapM (M := outcome) iov_bytes iov = Ok segs ->
  transmitv c iov w = Ok (context_send c segs, send segs w).
Proof.
  intros [Htx Happ] Hsegs. unfold transmitv. rewrite Htx. cbn.
  rewrite (transmitv_loop_accepting c iov Happ [] segs Hsegs). reflexivity.
Qed.

(** Whatever [transmitv] is given, it changes the world by at most one
    transmission, of the bytes of its segments. *)
Lemma transmitv_sends c iov w ret w' :
  transmitv c iov w = Ok (ret, w') ->
  w' = w \/
  exists segs, mapM (M := outcome) iov_bytes iov = Ok segs /\ w' = send segs w.
Proof.
  unfold transmitv. destruct (nbuf_get_tx c); cbn; [|intros [= _ <-]; tauto].
  assert (Hloop : forall iov buf r,
    transmitv_loop c buf iov = Ok (Some r) ->
    exists segs, mapM (M := outcome) iov_bytes iov = Ok segs /\ r = buf ++ segs).
  { clear. induction iov as [|v iov IH]; intros buf r; cbn.
    - intros [= <-]. exists []. rewrite app_nil_r. tauto.
    - destruct (iov_bytes v) as [d|f]; cbn; [|discriminate].
      destruct (nbuf_append c buf d); [|discriminate].
      intros Hr. destruct (IH _ _ Hr) as (segs & -> & ->). cbn.
      exists (d :: segs). rewrite <- app_assoc. tauto. }
  destruct (transmitv_loop c [] iov) as [[r|]|f] eqn:E; cbn; try discriminate.
  - intros [= _ <-]. right. destruct (Hloop _ _ _ E) as (segs & Hs & ->).
    exists segs. tauto.
  - intros [= _ <-]. tauto.
Qed.

Lemma len_or_strlen_Some p n :
  len_or_strlen (Some p) n = Ok (if n is O then strlen p else n).
Proof. destruct n; reflexivity. Qed.

Lemma iov_bytes_arg p n :
  iov_bytes (IoVec (Some p) (if n is O then strlen p else n)) = Ok (arg_bytes p n).
Proof. reflexivity. Qed.

Lemma iov_bytes_literal l : iov_bytes (TRANSMITV_LITERAL l) = Ok l.
Proof.
  unfold iov_bytes, TRANSMITV_LITERAL; simpl.
  rewrite bytes_at_take, take_ge by lia. reflexivity.
Qed.

Lemma is_sid_valid_Some i il : is_sid_valid i il = true -> exists s, i = Some s.
Proof. destruct i; [eauto|discriminate]. Qed.

Lemma is_subject_valid_Some s sl :
  is_subject_valid s sl = true -> exists p, s = Some p.
Proof. destruct s; [eauto|discriminate]. Qed.

(** What [snprintk] leaves when the conversion fits the buffer. *)
Lemma snprintk_zu_fits size n :
  (length (zu n) < size)%nat ->
  snprintk_zu size n = (Z.of_nat (length (zu n)), zu n) /\
  iov_bytes (IoVec (Some (zu n)) (Z.to_nat (Z.of_nat (length (zu n))))) = Ok (zu n).
Proof.
  intros Hfit. unfold snprintk_zu. rewrite take_ge by lia. split; [reflexivity|].
  unfold iov_bytes; simpl. rewrite Nat2Z.id, bytes_at_take, take_ge by lia.
  reflexivity.
Qed.

Lemma snprintk_fits_tests size n :
  (length (zu n) < size)%nat ->
  (Z.of_nat (length (zu n)) <? 0) || (Z.of_nat (length (zu n)) >=? Z.of_nat size)
  = false.
Proof.
  intros Hfit. rewrite Z.geb_leb. apply orb_false_iff. split.
  - apply Z.ltb_ge. lia.
  - apply Z.leb_gt. lia.
Qed.

Lemma snprintk_tests_fit size n :
  (Z.of_nat (length (zu n)) <? 0) || (Z.of_nat (length (zu n)) >=? Z.of_nat size)
  = false ->
  (length (zu n) < size)%nat.
Proof.
  rewrite Z.geb_leb. intros H. apply orb_false_iff in H as [_ H].
  apply Z.leb_gt in H. lia.
Qed.

(** The command [nats_subscribe] sends once its arguments are accepted. *)
Lemma nats_subscribe_wire n s sl q ql i il w :
  accepting (conn n) ->
  is_subject_valid (Some s) sl = true ->
  is_sid_valid (Some i) il = true ->
  exists b,
    nats_subscribe n (Some s) sl q ql (Some i) il w
      = Ok (context_send (conn n) b, send b w) /\
    wire b = lit "SUB " ++ arg_bytes s sl ++ lit " "
               ++ match q with
                  | Some g => arg_bytes g ql ++ lit " "
                  | None => []
                  end
               ++ arg_bytes i il ++ CRLF.
Proof.
  intros Hacc Hs Hi. unfold nats_subscribe. rewrite Hs, Hi. cbn [negb].
  destruct q as [g|]; rewrite !len_or_strlen_Some; cbn [mbind outcome_bind].
  - eexists. split.
    + apply transmitv_accepting; [exact Hacc|]. reflexivity.
    + unfold wire. cbn [concat]. rewrite app_nil_r, <- !app_assoc. reflexivity.
  - eexists. split.
    + apply transmitv_accepting; [exact Hacc|]. reflexivity.
    + unfold wire. cbn [concat]. rewrite app_nil_r. reflexivity.
Qed.

(** The command [nats_publish] sends when a reply subject is given: the
    header line and nothing after it. *)
Lemma nats_publish_reply_wire n s sl r rl p pl w :
  accepting (conn n) ->
  is_subject_valid (Some s) sl = true ->
  (length (zu pl) < 3 * sizeof_size_t)%nat ->
  exists b,
    nats_publish n (Some s) sl (Some r) rl p pl w
      = Ok (context_send (conn n) b, send b w) /\
    wire b = lit "PUB " ++ arg_bytes s sl ++ lit " " ++ arg_bytes r rl
               ++ lit " " ++ zu pl ++ CRLF.
Proof.
  intros Hacc Hs Hfit. unfold nats_publish. rewrite Hs. cbn [negb].
  destruct (snprintk_zu_fits _ _ Hfit) as [-> Hstr].
  rewrite (snprintk_fits_tests _ _ Hfit).
  rewrite !len_or_strlen_Some; cbn [mbind outcome_bind].
  eexists. split.
  - apply transmitv_accepting; [exact Hacc|].
    cbn [mapM]. rewrite Hstr. reflexivity.
  - unfold wire. cbn [concat]. rewrite app_nil_r. reflexivity.
Qed.

(** C4 (the code departs from it).  Whatever [nats_publish] hands to the
    network stack is the header line [PUB <subject> <reply_to> <size>\r\n]
    of a publication with a reply subject: the payload bytes are in no
    transmission, and a publication without reply subject is in none. *)
Theorem nats_publish_sends_header_only n s sl r rl p pl w ret w' :
  nats_publish n s sl r rl p pl w = Ok (ret, w') ->
  w' = w \/
  exists sb rb b,
    s = Some sb /\ r = Some rb /\ w' = send b w /\
    wire b = lit "PUB " ++ arg_bytes sb sl ++ lit " " ++ arg_bytes rb rl
               ++ lit " " ++ zu pl ++ CRLF.
Proof.
  unfold nats_publish.
  destruct (is_subject_valid s sl) eqn:Hs; cbn [negb]; [|intros [= _ <-]; tauto].
  destruct (is_subject_valid_Some _ _ Hs) as [sb ->].
  unfold snprintk_zu at 1.
  destruct (_ || _) eqn:Hfit; [intros [= _ <-]; tauto|].
  apply snprintk_tests_fit in Hfit.
  rewrite len_or_strlen_Some; cbn [mbind outcome_bind].
  destruct r as [rb|].
  - rewrite len_or_strlen_Some; cbn [mbind outcome_bind]. intros Ht.
    apply transmitv_sends in Ht as [->|(segs & Hsegs & ->)]; [tauto|].
    right. exists sb, rb, segs. repeat split.
    cbn [mapM] in Hsegs. rewrite take_ge in Hsegs by lia.
    rewrite (proj2 (snprintk_zu_fits _ _ Hfit)) in Hsegs.
    injection Hsegs as <-. unfold wire. cbn [concat]. rewrite app_nil_r.
    reflexivity.
  - destruct rl as [|rl]; cbn [len_or_strlen strlen_p mbind outcome_bind];
      [discriminate|].
    intros Ht. apply transmitv_sends in Ht as [->|(segs & Hsegs & ->)]; [tauto|].
    discriminate Hsegs.
Qed.

Lemma accepting_net_up : accepting Sample.net_up.
Proof. split; reflexivity. Defined.

Lemma nats_publish_sends_header_only_witness :
  let w1 := send [lit "PUB "; lit "foo"; lit " "; lit "bar"; lit " "; lit "2"; CRLF]
                 Sample.idle in
  nats_publish Sample.client (Some (lit "foo")) 3 (Some (lit "bar")) 3
               (Some (lit "hi")) 2 Sample.idle = Ok (0, w1) /\
  (w1 = Sample.idle \/
   exists sb rb b,
     Some (lit "foo") = Some sb /\ Some (lit "bar") = Some rb /\
     w1 = send b Sample.idle /\
     wire b = lit "PUB " ++ arg_bytes sb 3 ++ lit " " ++ arg_bytes rb 3
                ++ lit " " ++ zu 2 ++ CRLF).
Proof.
  split; [reflexivity|].
  apply (nats_publish_sends_header_only Sample.client (Some (lit "foo")) 3
           (Some (lit "bar")) 3 (Some (lit "hi")) 2 Sample.idle 0).
  reflexivity.
Defined.

(** The publication without reply subject, on the sample client. *)
Example nats_publish_without_reply :
  nats_publish Sample.client (Some (lit "foo")) 3 None 0 (Some (lit "hi")) 2
               Sample.idle = Fault NullDeref.
Proof. reflexivity. Qed.

(** C10.  With a subject length of 0 the validator looks at no character
    and accepts every non-null subject, while the command is built from the
    whole string: [nats_subscribe] (given a sid it accepts) and
    [nats_publish] (given a reply subject and a size that fits its buffer)
    then send the subject up to its terminator, whatever its characters. *)
Theorem zero_length_subject_is_sent_whole n s w :
  accepting (conn n) ->
  is_subject_valid (Some s) 0 = true /\
  (forall q ql i il,
      is_sid_valid i il = true ->
      exists ib b,
        i = Some ib /\
        nats_subscribe n (Some s) 0 q ql i il w
          = Ok (context_send (conn n) b, send b w) /\
        wire b = lit "SUB " ++ cstr s ++ lit " "
                   ++ match q with
                      | Some g => arg_bytes g ql ++ lit " "
                      | None => []
                      end
                   ++ arg_bytes ib il ++ CRLF) /\
  (forall r rl p pl,
      (length (zu pl) < 3 * sizeof_size_t)%nat ->
      exists b,
        nats_publish n (Some s) 0 (Some r) rl p pl w
          = Ok (context_send (conn n) b, send b w) /\
        wire b = lit "PUB " ++ cstr s ++ lit " " ++ arg_bytes r rl
                   ++ lit " " ++ zu pl ++ CRLF).
Proof.
  intros Hacc. split; [reflexivity|]. split.
  - intros q ql i il Hi. destruct (is_sid_valid_Some _ _ Hi) as [ib ->].
    destruct (nats_subscribe_wire n s 0 q ql ib il w Hacc eq_refl Hi)
      as (b & Hrun & Hwire).
    exists ib, b. unfold arg_bytes in Hwire at 1. rewrite bytes_at_strlen in Hwire.
    tauto.
  - intros r rl p pl Hfit.
    destruct (nats_publish_reply_wire n s 0 r rl p pl w Hacc eq_refl Hfit)
      as (b & Hrun & Hwire).
    exists b. unfold arg_bytes in Hwire at 1. rewrite bytes_at_strlen in Hwire.
    tauto.
Qed.

Lemma zero_length_subject_is_sent_whole_witness :
  accepting (conn Sample.client) /\
  validate_subject (Some (lit "a b")) = false /\
  is_subject_valid (Some (lit "a b")) 0 = true /\
  exists b,
    nats_subscribe Sample.client (Some (lit "a b")) 0 None 0 (Some (lit "s1")) 0
                   Sample.idle = Ok (0, send b Sample.idle) /\
    wire b = lit "SUB a b s1" ++ CRLF.
Proof.
  split; [exact accepting_net_up|]. split; [reflexivity|].
  destruct (zero_length_subject_is_sent_whole Sample.client (lit "a b")
              Sample.idle accepting_net_up) as (Hv & Hsub & _).
  split; [exact Hv|].
  destruct (Hsub None 0%nat (Some (lit "s1")) 0%nat eq_refl)
    as (ib & b & Hib & Hrun & Hwire).
  exists b. split; [exact Hrun|].
  injection Hib as <-. exact Hwire.
Defined.

(** ** Inbound command handlers *)

(** C5.  For a payload the decoder accepts, [handle_server_info] answers
    [-ENOTSUP] when [ssl_required] is set, whatever [auth_required];
    otherwise it succeeds and sends nothing when [auth_required] is clear,
    answers [-EPERM] when it is set and no credential callback is
    configured, and, when the callback provides user [a] and password [b]
    (which escaping leaves as they are), hands the stack exactly
    [CONNECT {"user":"a","pass":"b"}\r\n]. *)
Theorem handle_server_info_policy `{Json} n payload len w ret info :
  json_obj_parse (bytes_at payload len) = (ret, info) ->
  0 <= ret ->
  (ssl_required info = true ->
   handle_server_info n payload len w = Ok (- ENOTSUP, payload, w)) /\
  (ssl_required info = false -> auth_required info = false ->
   handle_server_info n payload len w = Ok (0, payload, w)) /\
  (ssl_required info = false -> auth_required info = true ->
   on_auth_required n = None ->
   handle_server_info n payload len w = Ok (- EPERM, payload, w)) /\
  (ssl_required info = false -> auth_required info = true ->
   forall provide r e1 e2,
     on_auth_required n = Some provide ->
     provide 32%nat 64%nat = (r, lit "a", lit "b") -> 0 <= r ->
     json_escape (lit "a") 32%nat = (e1, lit "a") -> 0 <= e1 ->
     json_escape (lit "b") 64%nat = (e2, lit "b") -> 0 <= e2 ->
     accepting (conn n) ->
     exists b,
       handle_server_info n payload len w
         = Ok (context_send (conn n) b, payload, send b w) /\
       wire b = lit "CONNECT {" ++ [DQ] ++ lit "user" ++ [DQ] ++ lit ":"
                  ++ [DQ] ++ lit "a" ++ [DQ] ++ lit "," ++ [DQ] ++ lit "pass"
                  ++ [DQ] ++ lit ":" ++ [DQ] ++ lit "b" ++ [DQ] ++ lit "}"
                  ++ CRLF).
Proof.
  intros Hparse Hret. unfold handle_server_info. rewrite Hparse.
  rewrite (proj2 (Z.ltb_ge ret 0)) by lia.
  repeat split.
  - intros ->. reflexivity.
  - intros -> ->. reflexivity.
  - intros -> -> ->. reflexivity.
  - intros -> -> provide r e1 e2 -> Hp Hr He1 H1 He2 H2 Hacc.
    cbn [negb]. rewrite Hp, (proj2 (Z.ltb_ge r 0)) by lia.
    rewrite He1, (proj2 (Z.ltb_ge e1 0)) by lia.
    rewrite He2, (proj2 (Z.ltb_ge e2 0)) by lia.
    eexists. split.
    + unfold with_payload.
      erewrite transmitv_accepting; [reflexivity|exact Hacc|reflexivity].
    + reflexivity.
Qed.

Lemma handle_server_info_policy_witness :
  let payload := lit "{" ++ Sample.flag_true "auth_required" ++ lit "}" in
  exists b,
    handle_server_info (H := Sample.json) Sample.client payload
                       (length payload) Sample.idle
      = Ok (0, payload, send b Sample.idle) /\
    wire b = lit "CONNECT {" ++ [DQ] ++ lit "user" ++ [DQ] ++ lit ":"
               ++ [DQ] ++ lit "a" ++ [DQ] ++ lit "," ++ [DQ] ++ lit "pass"
               ++ [DQ] ++ lit ":" ++ [DQ] ++ lit "b" ++ [DQ] ++ lit "}"
               ++ CRLF.
Proof.
  intros payload.
  destruct (handle_server_info_policy (H := Sample.json) Sample.client
              payload (length payload)
              Sample.idle 0 (NatsInfo None None None None 0 0 false true)
              eq_refl ltac:(lia)) as (_ & _ & _ & Hconnect).
  destruct (Hconnect eq_refl eq_refl (Sample.credentials "a" "b") 0 0 0
              eq_refl eq_refl ltac:(lia) eq_refl ltac:(lia) eq_refl ltac:(lia)
              accepting_net_up) as (b & Hrun & Hwire).
  exists b. split; [exact Hrun|exact Hwire].
Defined.

(** The first three cases on the sample client. *)
Example handle_server_info_tls :
  let payload := lit "{" ++ Sample.flag_true "ssl_required" ++ lit ","
                   ++ Sample.flag_true "auth_required" ++ lit "}" in
  handle_server_info (H := Sample.json) Sample.client payload
                     (length payload) Sample.idle
    = Ok (- ENOTSUP, payload, Sample.idle).
Proof. reflexivity. Qed.

(** ** Command dispatcher *)

Lemma rd_insert_NUL mem p : rd (<[p := NUL]> mem) p = NUL.
Proof.
  unfold rd. destruct (decide (p < length mem)%nat) as [Hp|Hp].
  - rewrite list_lookup_insert_eq by exact Hp. reflexivity.
  - rewrite list_insert_ge by lia. rewrite lookup_ge_None_2 by lia. reflexivity.
Qed.

(** Where [strsep] finds a delimiter it leaves a NUL, and the pointer it
    returns is past that NUL. *)
Lemma strsep_loop_cut mem strp todo delims q mem' :
  strsep_loop mem strp todo delims = (Some q, mem') ->
  exists p, (strp <= p < q)%nat /\ mem' = <[p := NUL]> mem.
Proof.
  induction todo as [|d todo IH]; cbn; [discriminate|].
  destruct (strchr (drop strp mem) d) as [i|]; [|exact IH].
  intros [= <- <-]. exists (strp + i)%nat. split; [lia|reflexivity].
Qed.

Lemma strsep_loop_none mem strp todo delims mem' :
  strsep_loop mem strp todo delims = (None, mem') -> mem' = mem.
Proof.
  induction todo as [|d todo IH]; cbn; [congruence|].
  destruct (strchr (drop strp mem) d) as [i|]; [discriminate|exact IH].
Qed.

Lemma code_inj x y : code x - code y = 0 -> x = y.
Proof.
  unfold code. intros H.
  rewrite <- (ascii_nat_embedding x), <- (ascii_nat_embedding y).
  f_equal. lia.
Qed.

(** [strncmp] tells apart a string that goes on from one that has ended. *)
Lemma strncmp_ended p :
  forall n a b,
    (p < n)%nat -> rd b p = NUL ->
    (forall i, (i <= p)%nat -> rd a i <> NUL) ->
    strncmp a b n <> 0.
Proof.
  induction p as [|p IH]; intros [|n] a b Hp Hb Ha; try lia; cbn [strncmp].
  - destruct (Ascii.eqb_spec (rd a 0) (rd b 0)) as [E|E].
    + exfalso. apply (Ha 0%nat); [lia|]. congruence.
    + intros H. apply E, code_inj, H.
  - destruct (Ascii.eqb_spec (rd a 0) (rd b 0)) as [E|E].
    + destruct (Ascii.eqb_spec (rd a 0) NUL) as [E0|E0].
      * exfalso. apply (Ha 0%nat); [lia|exact E0].
      * apply IH; [lia| |].
        -- rewrite rd_drop. exact Hb.
        -- intros i Hi. rewrite rd_drop. apply Ha. lia.
    + intros H. apply E, code_inj, H.
Qed.

Lemma cmds_well_formed `{Json} : well_formed_table cmds.
Proof.
  unfold well_formed_table, cmds.
  repeat (apply Forall_cons_2;
          [cbn; intros i Hi;
           do 4 (destruct i as [|i]; [first [discriminate|lia]|]); lia|]).
  apply Forall_nil_2.
Qed.

(** A command with a NUL among its first [len] bytes matches no operation
    of length [len]. *)
Lemma cmds_find_ended table cmd len p :
  well_formed_table table ->
  (p < len)%nat -> rd cmd p = NUL ->
  cmds_find table cmd len = None.
Proof.
  intros Hwf Hp Hnul. induction Hwf as [|[[op op_len] h] table Hop _ IH];
    [reflexivity|].
  cbn [cmds_find]. destruct (Nat.eqb_spec len op_len) as [<-|]; cbn [negb];
    [|exact IH].
  destruct (Z.eqb_spec (strncmp op cmd len) 0) as [E|_]; [|exact IH].
  exfalso. revert E. apply (strncmp_ended p); [exact Hp|exact Hnul|].
  intros i Hi. apply Hop. cbn. lia.
Qed.

(** The dispatcher never gets as far as a handler: the length it compares
    with the table counts the delimiter that [strsep] has just replaced by
    NUL, so no operation of that length can be equal to the token. *)
Lemma handle_server_cmd_outcome `{Json} n cmd len w :
  exists m,
    length m = length cmd /\
    (handle_server_cmd n cmd len w = Ok (- EINVAL, m, w) \/
     handle_server_cmd n cmd len w = Ok (- ENOENT, m, w)).
Proof.
  unfold handle_server_cmd, strsep.
  destruct (strsep_loop cmd 0 [SP; HT] [SP; HT]) as [[q|] m] eqn:E1.
  - exists m.
    destruct (strsep_loop_cut _ _ _ _ _ _ E1) as (p & Hp & ->).
    split; [apply length_insert|]. right.
    rewrite (cmds_find_ended cmds _ q p cmds_well_formed);
      [reflexivity|lia|apply rd_insert_NUL].
  - apply strsep_loop_none in E1 as ->.
    destruct (strsep_loop cmd 0 [CR] [CR]) as [[q|] m'] eqn:E2.
    + exists m'.
      destruct (strsep_loop_cut _ _ _ _ _ _ E2) as (p & Hp & ->).
      split; [apply length_insert|]. right.
      rewrite (cmds_find_ended cmds _ q p cmds_well_formed);
        [reflexivity|lia|apply rd_insert_NUL].
    + apply strsep_loop_none in E2 as ->.
      exists cmd. split; [reflexivity|]. left. reflexivity.
Qed.

(** C1 (the code departs from it).  Whatever line it is given,
    [handle_server_cmd] answers [-EINVAL] or [-ENOENT] and leaves the world
    as it was; in particular each of the five operations, sent as a line of
    its own or with a payload, is answered [-ENOENT] and its handler is not
    called. *)
Theorem handle_server_cmd_calls_no_handler `{Json} n w :
  (forall cmd len, exists m,
      handle_server_cmd n cmd len w = Ok (- EINVAL, m, w) \/
      handle_server_cmd n cmd len w = Ok (- ENOENT, m, w)) /\
  handle_server_cmd n (lit "INFO" ++ CRLF) 6 w
    = Ok (- ENOENT, lit "INFO" ++ [NUL; LF], w) /\
  handle_server_cmd n (lit "MSG" ++ CRLF) 5 w
    = Ok (- ENOENT, lit "MSG" ++ [NUL; LF], w) /\
  handle_server_cmd n (lit "PING" ++ CRLF) 6 w
    = Ok (- ENOENT, lit "PING" ++ [NUL; LF], w) /\
  handle_server_cmd n (lit "+OK" ++ CRLF) 5 w
    = Ok (- ENOENT, lit "+OK" ++ [NUL; LF], w) /\
  handle_server_cmd n (lit "-ERR" ++ CRLF) 6 w
    = Ok (- ENOENT, lit "-ERR" ++ [NUL; LF], w) /\
  handle_server_cmd n (lit "MSG foo 1 5" ++ CRLF ++ lit "hello") 18 w
    = Ok (- ENOENT, lit "MSG" ++ [NUL] ++ lit "foo 1 5" ++ CRLF ++ lit "hello", w) /\
  handle_server_cmd n (lit "PING") 4 w = Ok (- EINVAL, lit "PING", w).
Proof.
  split.
  - intros cmd len.
    destruct (handle_server_cmd_outcome n cmd len w) as (m & _ & Hm).
    exists m. exact Hm.
  - repeat split; reflexivity.
Qed.

(** ** The MSG handler *)

(** [handle_server_msg] calls the message callback at most once. *)
Lemma handle_server_msg_delivers_once n payload len w ret m w' :
  handle_server_msg n payload len w = Ok (ret, m, w') ->
  w' = w \/ exists msg, w' = deliver msg w /\ ret = on_message n msg.
Proof.
  unfold handle_server_msg.
  destruct (strsep _ (Some 0%nat) _) as [sid m1].
  destruct (strsep m1 sid _) as [reply_to m2].
  destruct (match reply_to with
            | Some _ => strsep m2 reply_to [CR]
            | None => strsep m2 sid [CR]
            end) as [[b|] m3]; [|intros [= _ _ <-]; tauto].
  destruct (strtoul _) as [[size e] errno].
  destruct (negb (errno =? 0)); [intros [= _ _ <-]; tauto|].
  destruct (_ >=? _); [intros [= _ _ <-]; tauto|].
  intros [= <- _ <-]. right. eexists. split; reflexivity.
Qed.

(** C3 (the code departs from it).  On the payload [foo 1 5\r\nhello]
    the handler takes [5] for the reply subject and reads the size after
    the carriage return, where there is none: the callback is given
    [reply_to = "5"], [payload_len = 0] and a payload pointer two bytes
    into [hello].  With a reply subject, [foo 1 bar 5\r\nhello], the reply
    subject includes the size.  A payload cut short, [foo 1 5\r\nhel], is
    delivered like the others instead of being refused. *)
Theorem handle_server_msg_misreads_size n w :
  (exists m msg,
      handle_server_msg n (lit "foo 1 5" ++ CRLF ++ lit "hello") 14%nat w
        = Ok (on_message n msg, m, deliver msg w) /\
      cstr (subject msg) = lit "foo" /\
      cstr <$> sid msg = Some (lit "1") /\
      cstr <$> reply_to msg = Some (lit "5") /\
      payload msg = lit "ello" /\
      payload_len msg = 0) /\
  (exists m msg,
      handle_server_msg n (lit "foo 1 bar 5" ++ CRLF ++ lit "hello") 18%nat w
        = Ok (on_message n msg, m, deliver msg w) /\
      cstr (subject msg) = lit "foo" /\
      cstr <$> sid msg = Some (lit "1") /\
      cstr <$> reply_to msg = Some (lit "bar 5") /\
      payload msg = lit "ello" /\
      payload_len msg = 0) /\
  (exists m msg,
      handle_server_msg n (lit "foo 1 5" ++ CRLF ++ lit "hel") 12%nat w
        = Ok (on_message n msg, m, deliver msg w) /\
      cstr <$> reply_to msg = Some (lit "5") /\
      payload_len msg = 0).
Proof.
  split; [|split]; eexists; eexists; (split; [reflexivity|]);
    repeat split; reflexivity.
Qed.

(** ** Receive path *)

Lemma memchr_lt c n : forall s i, memchr s c n = Some i -> (i < n)%nat.
Proof.
  induction n as [|n IH]; intros s i; cbn [memchr]; [discriminate|].
  destruct (rd s 0 =? c)%char; [intros [= <-]; lia|].
  destruct (memchr (drop 1 s) c n) as [j|] eqn:E; [|discriminate].
  intros [= <-]. apply IH in E. lia.
Qed.

(** [memchr] over a whole object finds the first occurrence. *)
Lemma memchr_found c s : forall i,
    memchr s c (length s) = Some i ->
    s !! i = Some c /\ c ∉ take i s.
Proof.
  induction s as [|x s IH]; intros i; cbn [length memchr]; [discriminate|].
  rewrite rd_cons_0. destruct (Ascii.eqb_spec x c) as [->|Hx].
  - intros [= <-]. split; [reflexivity|]. rewrite take_0. apply not_elem_of_nil.
  - cbn [drop]. rewrite drop_0.
    destruct (memchr s c (length s)) as [j|] eqn:E; [|discriminate].
    intros [= <-]. destruct (IH j eq_refl) as [Hj Hnot]. split; [exact Hj|].
    cbn [take]. rewrite not_elem_of_cons. split; [congruence|exact Hnot].
Qed.

Lemma memchr_none c s : memchr s c (length s) = None -> c ∉ s.
Proof.
  induction s as [|x s IH]; cbn [length memchr]; [intros _; apply not_elem_of_nil|].
  rewrite rd_cons_0. destruct (Ascii.eqb_spec x c) as [->|Hx]; [discriminate|].
  cbn [drop]. rewrite drop_0.
  destruct (memchr s c (length s)) as [j|] eqn:E; [discriminate|].
  intros _. rewrite not_elem_of_cons. split; [congruence|apply IH; reflexivity].
Qed.

Lemma memchr_first c line rest n :
  c ∉ line -> (length line < n)%nat ->
  memchr (line ++ c :: rest) c n = Some (length line).
Proof.
  revert n. induction line as [|x line IH]; intros n Hnot Hn.
  - destruct n; [simpl in Hn; lia|]. cbn. rewrite Ascii.eqb_refl. reflexivity.
  - apply not_elem_of_cons in Hnot as [Hx Hnot].
    destruct n; [simpl in Hn; lia|]. cbn [app memchr]. rewrite rd_cons_0.
    destruct (Ascii.eqb_spec x c) as [->|_]; [congruence|].
    cbn [drop]. rewrite drop_0, IH by (simpl in Hn; auto with lia). reflexivity.
Qed.

Lemma nbuf_adjust_within f rest pos :
  (pos <= length f)%nat ->
  nbuf_adjust (f :: rest) pos
  = if (pos =? length f)%nat then (rest, 0%nat) else (f :: rest, pos).
Proof.
  intros Hpos. cbn [nbuf_adjust].
  destruct (Nat.eqb_spec pos (length f)); [reflexivity|].
  rewrite (proj2 (Nat.ltb_lt _ _)) by lia. reflexivity.
Qed.

(** Reading inside the current fragment. *)
Lemma net_nbuf_read_within f rest len :
  forall pos,
    (pos + len <= length f)%nat ->
    net_nbuf_read (f :: rest) pos len
    = (take len (drop pos f),
       if (pos + len =? length f)%nat then (rest, 0%nat)
       else (f :: rest, (pos + len)%nat)).
Proof.
  induction len as [|len IH]; intros pos Hlen.
  - cbn [net_nbuf_read]. rewrite nbuf_adjust_within by lia.
    rewrite Nat.add_0_r, take_0.
    destruct (pos =? length f)%nat; [destruct rest|]; reflexivity.
  - cbn [net_nbuf_read]. rewrite nbuf_adjust_within by lia.
    rewrite (proj2 (Nat.eqb_neq pos (length f))) by lia.
    rewrite IH by lia.
    assert (Hpos : (pos < length f)%nat) by lia.
    apply lookup_lt_is_Some_2 in Hpos as [c Hc].
    rewrite (drop_S _ _ _ Hc), (rd_lookup _ _ _ Hc). cbn [take].
    replace (S pos + len)%nat with (pos + S len)%nat by lia. reflexivity.
Qed.

(** The size of what is left in the current fragment, as the loop
    computes it. *)
Lemma remaining_len (f : list char) pos :
  (pos <= length f)%nat -> Z.of_nat (length f) < 2 ^ 16 ->
  Z.to_nat ((Z.of_nat (length f) - Z.of_nat pos) mod 2 ^ 32)
  = (length f - pos)%nat.
Proof. intros Hpos Hf. rewrite Z.mod_small by lia. lia. Qed.

Lemma cmd_len_sum a b :
  (a + b <= sizeof_cmd_buf)%nat ->
  Z.to_nat (Z.of_nat (a + b) mod 2 ^ 16) = (a + b)%nat.
Proof. unfold sizeof_cmd_buf. intros H. rewrite Z.mod_small by lia. lia. Qed.

(** *** One turn of the loop *)

Section Loop.

Variable handle_cmd :
  nats -> list char -> nat -> world -> outcome (Z * list char * world).

Lemma turn_len_le f pos : (turn_len f pos <= length f - pos)%nat.
Proof.
  unfold turn_len. destruct (memchr _ _ _) as [i|] eqn:E; [|lia].
  apply memchr_lt in E. lia.
Qed.

(** The guard fires. *)
Lemma receive_loop_too_long fuel n f rest pos cmd_buf cmd_len log w :
  (pos <= length f)%nat -> Z.of_nat (length f) < 2 ^ 16 ->
  (sizeof_cmd_buf < cmd_len + turn_len f pos)%nat ->
  receive_loop handle_cmd (S fuel) n (f :: rest) pos cmd_buf cmd_len log w
  = Ok (TooLong, log, w).
Proof.
  intros Hpos Hf Hlong. cbn [receive_loop].
  rewrite remaining_len by assumption. fold (turn_len f pos).
  rewrite (proj2 (Nat.ltb_lt _ _)) by exact Hlong. reflexivity.
Qed.

(** No carriage return in the rest of the fragment: it is copied and the
    loop goes on with the next fragment. *)
Lemma receive_loop_more fuel n f rest pos cmd_buf cmd_len log w :
  (pos <= length f)%nat -> Z.of_nat (length f) < 2 ^ 16 ->
  memchr (drop pos f) CR (length f - pos) = None ->
  (cmd_len + (length f - pos) <= sizeof_cmd_buf)%nat ->
  receive_loop handle_cmd (S fuel) n (f :: rest) pos cmd_buf cmd_len log w
  = receive_loop handle_cmd fuel n rest 0
      (store cmd_buf cmd_len (drop pos f)) (cmd_len + (length f - pos)) log w.
Proof.
  intros Hpos Hf Hnone Hfit. cbn [receive_loop].
  rewrite remaining_len by assumption. rewrite Hnone.
  rewrite (proj2 (Nat.ltb_ge _ _)) by exact Hfit.
  rewrite net_nbuf_read_within by lia.
  rewrite (proj2 (Nat.eqb_eq _ _)) by lia.
  rewrite cmd_len_sum by exact Hfit.
  rewrite take_ge by (rewrite length_drop; lia). reflexivity.
Qed.

(** A carriage return [i] bytes on: the line is completed, terminated and
    dispatched, and the loop goes on after the carriage return. *)
Lemma receive_loop_line fuel n f rest pos cmd_buf cmd_len log w i :
  (pos <= length f)%nat -> Z.of_nat (length f) < 2 ^ 16 ->
  memchr (drop pos f) CR (length f - pos) = Some i ->
  (cmd_len + i <= sizeof_cmd_buf)%nat ->
  receive_loop handle_cmd (S fuel) n (f :: rest) pos cmd_buf cmd_len log w
  = if (sizeof_cmd_buf <=? cmd_len + i)%nat
    then Fault (OutOfBounds (cmd_len + i))
    else
      let buf1 := <[(cmd_len + i)%nat := NUL]>
                    (store cmd_buf cmd_len (take i (drop pos f))) in
      let log1 := log ++ [take (cmd_len + i) buf1] in
      '(ret, buf2, w1) ← handle_cmd n buf1 (cmd_len + i)%nat w;
      if ret <? 0 then Ok (Rejected, log1, w1)
      else if (pos + i + 1 =? length f)%nat
           then receive_loop handle_cmd fuel n rest 0 buf2 0 log1 w1
           else receive_loop handle_cmd fuel n (f :: rest) (pos + i + 1)
                  buf2 0 log1 w1.
Proof.
  intros Hpos Hf Hsome Hfit. pose proof (memchr_lt _ _ _ _ Hsome) as Hi.
  cbn [receive_loop].
  rewrite remaining_len by assumption. rewrite Hsome.
  rewrite (proj2 (Nat.ltb_ge _ _)) by exact Hfit.
  rewrite net_nbuf_read_within by lia.
  rewrite (proj2 (Nat.eqb_neq (pos + i) (length f))) by lia.
  rewrite cmd_len_sum by exact Hfit.
  rewrite net_nbuf_read_within by lia. cbn [snd].
  destruct (pos + i + 1 =? length f)%nat;
    (destruct (sizeof_cmd_buf <=? cmd_len + i)%nat; [reflexivity|]);
    (destruct (handle_cmd n _ (cmd_len + i)%nat w) as [[[ret buf2] w1]|flt];
       cbn [mbind outcome_bind]; [|reflexivity]);
    destruct (ret <? 0); reflexivity.
Qed.

End Loop.

(** *** What the client does with a delivery *)

Lemma short_frags_cons f rest :
  short_frags (f :: rest) <-> Z.of_nat (length f) < 2 ^ 16 /\ short_frags rest.
Proof. unfold short_frags. rewrite Forall_cons. reflexivity. Qed.

(** With the dispatcher as it is, the loop ends at the first line it
    completes and the world is left as it was.  Here for a delivery that
    the command buffer has room for. *)
Lemma receive_loop_small `{Json} fuel :
  forall n tmp pos cmd_buf cmd_len log w,
    short_frags tmp ->
    (pos <= length (hd [] tmp))%nat ->
    (cmd_len + length (concat tmp) < sizeof_cmd_buf + pos)%nat ->
    exists e log',
      receive_loop handle_server_cmd fuel n tmp pos cmd_buf cmd_len log w
      = Ok (e, log', w).
Proof.
  induction fuel as [|fuel IH]; intros n [|f rest] pos cmd_buf cmd_len log w
    Hshort Hpos Hsmall; try (eexists; eexists; reflexivity).
  apply short_frags_cons in Hshort as [Hf Hrest].
  cbn [hd] in Hpos. cbn [concat] in Hsmall. rewrite length_app in Hsmall.
  destruct (memchr (drop pos f) CR (length f - pos)) as [i|] eqn:E.
  - pose proof (memchr_lt _ _ _ _ E) as Hi.
    rewrite (receive_loop_line _ _ _ _ _ _ _ _ _ _ i) by (assumption || lia).
    rewrite (proj2 (Nat.leb_gt _ _)) by lia. cbn zeta.
    destruct (handle_server_cmd_outcome n
                (<[(cmd_len + i)%nat := NUL]>
                   (store cmd_buf cmd_len (take i (drop pos f))))
                (cmd_len + i)%nat w) as (m & _ & [-> | ->]);
      cbn [mbind outcome_bind]; eexists; eexists; reflexivity.
  - rewrite receive_loop_more by (assumption || lia).
    apply IH; [exact Hrest|lia|lia].
Qed.

Lemma receive_cb_small `{Json} n stack f w :
  (length f < sizeof_cmd_buf)%nat ->
  receive_cb n stack (Some (NetBuf [f] 0)) 0 w = Ok w.
Proof.
  intros Hf. unfold receive_cb, receive_run. cbn [frags appdata negb Z.eqb].
  destruct (receive_loop_small (receive_fuel [f]) n [f] 0
              (resize sizeof_cmd_buf NUL stack) 0 [] w) as (e & log' & ->).
  - apply Forall_singleton. unfold sizeof_cmd_buf in Hf. lia.
  - cbn [hd]. lia.
  - cbn [concat]. rewrite app_nil_r. lia.
  - reflexivity.
Qed.

(** C2 (the code departs from it).  However [PING\r\n] is cut in two,
    whether the parts come as two deliveries or as two fragments of one,
    the client hands nothing to the network stack: no [PONG] answers the
    [PING], for no handler is called. *)
Theorem split_ping_is_not_answered `{Json} n stack k w :
  receive_all n stack [NetBuf [take k Sample.ping] 0;
                       NetBuf [drop k Sample.ping] 0] w = Ok w /\
  receive_cb n stack (Some (NetBuf [take k Sample.ping; drop k Sample.ping] 0))
             0 w = Ok w.
Proof.
  assert (Hlen : length Sample.ping = 6%nat) by reflexivity.
  split.
  - cbn [receive_all].
    rewrite receive_cb_small
      by (rewrite length_take; unfold sizeof_cmd_buf; lia).
    cbn [mbind outcome_bind].
    rewrite receive_cb_small
      by (rewrite length_drop; unfold sizeof_cmd_buf; lia).
    reflexivity.
  - unfold receive_cb, receive_run. cbn [frags appdata negb Z.eqb].
    destruct (receive_loop_small
                (receive_fuel [take k Sample.ping; drop k Sample.ping]) n
                [take k Sample.ping; drop k Sample.ping] 0
                (resize sizeof_cmd_buf NUL stack) 0 [] w) as (e & log' & ->).
    + repeat apply Forall_cons_2; [| |apply Forall_nil_2].
      * rewrite length_take. lia.
      * rewrite length_drop. lia.
    + cbn [hd]. lia.
    + cbn [concat]. rewrite app_nil_r, take_drop, Hlen.
      unfold sizeof_cmd_buf. lia.
    + reflexivity.
Qed.

(** What a dispatched [PING] would have left in the world. *)
Lemma handle_server_ping_answers n payload len w :
  accepting (conn n) ->
  handle_server_ping n payload len w
  = Ok (context_send (conn n) [lit "PONG" ++ CRLF], payload,
        send [lit "PONG" ++ CRLF] w).
Proof.
  intros Hacc. unfold handle_server_ping, transmit, with_payload.
  erewrite transmitv_accepting; [reflexivity|exact Hacc|reflexivity].
Qed.

(** Whatever is delivered, [receive_cb] leaves the world as it was: it
    sends nothing and delivers nothing; and the loop ends with the first
    line that is dispatched. *)
Lemma receive_loop_inert `{Json} fuel :
  forall n tmp pos cmd_buf cmd_len log w e log' w',
    receive_loop handle_server_cmd fuel n tmp pos cmd_buf cmd_len log w
    = Ok (e, log', w') ->
    w' = w /\ (e = Rejected \/ log' = log).
Proof.
  induction fuel as [|fuel IH]; intros n [|f rest] pos cmd_buf cmd_len log w
    e log' w'; cbn [receive_loop]; try (intros [= _ <- <-]; tauto).
  destruct (_ <? _)%nat; [intros [= _ <- <-]; tauto|].
  destruct (net_nbuf_read _ _ _) as [data [tmp1 pos1]].
  destruct (memchr _ _ _) as [i|]; [|apply IH].
  destruct (match tmp1 with [] => _ | _ :: _ => _ end) as [tmp2 pos2].
  destruct (_ <=? _)%nat; [discriminate|].
  match goal with
  | |- context [handle_server_cmd n ?c ?l w] =>
      destruct (handle_server_cmd_outcome n c l w) as (m & _ & [-> | ->])
  end; cbn [mbind outcome_bind]; intros [= <- _ <-]; tauto.
Qed.

Lemma receive_cb_inert `{Json} n stack buf status w w' :
  receive_cb n stack buf status w = Ok w' -> w' = w.
Proof.
  unfold receive_cb, receive_run.
  destruct buf as [b|]; [|intros [= <-]; reflexivity].
  destruct (negb (status =? 0)); [intros [= <-]; reflexivity|].
  destruct (frags b) as [|f rest]; [discriminate|].
  destruct (receive_loop _ _ _ _ _ _ _ _ _) as [[[e log'] w1]|flt] eqn:E;
    cbn [mbind outcome_bind]; [|discriminate].
  intros [= <-]. exact (proj1 (receive_loop_inert _ _ _ _ _ _ _ _ _ _ _ E)).
Qed.

(** The fuel given to the loop is never used up. *)
Lemma receive_loop_fuel handle_cmd fuel :
  forall n tmp pos cmd_buf cmd_len log w e log' w',
    short_frags tmp ->
    (pos <= length (hd [] tmp))%nat ->
    (length (concat tmp) - pos + length tmp < fuel)%nat ->
    receive_loop handle_cmd fuel n tmp pos cmd_buf cmd_len log w
    = Ok (e, log', w') ->
    e <> OutOfFuel.
Proof.
  induction fuel as [|fuel IH]; intros n [|f rest] pos cmd_buf cmd_len log w
    e log' w' Hshort Hpos Hfuel; try (cbn; intros [= <- _ _]; discriminate).
  { cbn in Hfuel. lia. }
  apply short_frags_cons in Hshort as [Hf Hrest].
  cbn [hd] in Hpos. cbn [concat length] in Hfuel. rewrite length_app in Hfuel.
  destruct (decide (sizeof_cmd_buf < cmd_len + turn_len f pos)%nat) as [Hl|Hl].
  { rewrite receive_loop_too_long by assumption. intros [= <- _ _]. discriminate. }
  unfold turn_len in Hl.
  destruct (memchr (drop pos f) CR (length f - pos)) as [i|] eqn:E.
  - pose proof (memchr_lt _ _ _ _ E) as Hi.
    rewrite (receive_loop_line _ _ _ _ _ _ _ _ _ _ i) by (assumption || lia).
    destruct (_ <=? _)%nat; [discriminate|]. cbn zeta.
    destruct (handle_cmd n _ _ w) as [[[ret buf2] w1]|flt];
      cbn [mbind outcome_bind]; [|discriminate].
    destruct (ret <? 0); [intros [= <- _ _]; discriminate|].
    destruct (Nat.eqb_spec (pos + i + 1) (length f)) as [Heq|Hne].
    + apply IH; [exact Hrest|lia|lia].
    + apply IH; [apply short_frags_cons; tauto|cbn [hd]; lia|].
      cbn [concat length]. rewrite length_app. lia.
  - rewrite receive_loop_more by (assumption || lia).
    apply IH; [exact Hrest|lia|lia].
Qed.

(** A line of exactly [sizeof(cmd_buf)] bytes passes the guard, and its
    terminator is written one past the end of the buffer. *)
Lemma receive_run_full_line handle_cmd n stack line rest w :
  length line = sizeof_cmd_buf ->
  CR ∉ line ->
  Z.of_nat (length (line ++ CR :: rest)) < 2 ^ 16 ->
  receive_run handle_cmd n stack (Some (NetBuf [line ++ CR :: rest] 0)) 0 w
  = Fault (OutOfBounds sizeof_cmd_buf).
Proof.
  intros Hlen Hnot Hshort. unfold receive_run, receive_fuel.
  cbn [frags appdata negb Z.eqb].
  rewrite (receive_loop_line handle_cmd _ n (line ++ CR :: rest) [] 0
             _ 0 [] w sizeof_cmd_buf).
  - reflexivity.
  - lia.
  - exact Hshort.
  - rewrite drop_0, Nat.sub_0_r, <- Hlen. apply memchr_first; [exact Hnot|].
    rewrite length_app. cbn [length]. lia.
  - cbn. lia.
Qed.

(** C9 (the code departs from it).  The guard of [receive_cb] admits a
    line of exactly 256 bytes; its terminator is then written at
    [cmd_buf[256]], outside the buffer. *)
Theorem terminator_written_past_cmd_buf `{Json} n stack line rest w :
  length line = 256%nat ->
  CR ∉ line ->
  Z.of_nat (length (line ++ CR :: rest)) < 2 ^ 16 ->
  receive_cb n stack (Some (NetBuf [line ++ CR :: rest] 0)) 0 w
  = Fault (OutOfBounds 256).
Proof.
  intros Hlen Hnot Hshort. unfold receive_cb.
  rewrite (receive_run_full_line _ n stack line rest w Hlen Hnot Hshort).
  reflexivity.
Qed.

Lemma CR_not_in_replicate k c : c <> CR -> CR ∉ replicate k c.
Proof. intros Hc Hin. apply elem_of_replicate in Hin as [E _]. congruence. Qed.

Lemma terminator_written_past_cmd_buf_witness :
  let line := replicate 256 "a"%char in
  length line = 256%nat /\
  receive_cb (H := Sample.json) Sample.client [] (Some (NetBuf [line ++ CRLF] 0))
             0 Sample.idle
  = Fault (OutOfBounds 256).
Proof.
  split; [reflexivity|].
  apply (terminator_written_past_cmd_buf (H := Sample.json) Sample.client []
           (replicate 256 "a"%char) [LF] Sample.idle).
  - reflexivity.
  - apply CR_not_in_replicate. discriminate.
  - rewrite length_app, length_replicate. cbn [length]. lia.
Defined.

(** *** The lines that reach the dispatcher *)

Lemma length_store data : forall buf at_, length (store buf at_ data) = length buf.
Proof.
  induction data as [|c data IH]; intros buf at_; cbn [store]; [reflexivity|].
  rewrite IH, length_insert. reflexivity.
Qed.

Lemma take_store data :
  forall buf at_,
    (at_ + length data <= length buf)%nat ->
    take (at_ + length data) (store buf at_ data) = take at_ buf ++ data.
Proof.
  induction data as [|c data IH]; intros buf at_ Hfit; cbn [store length] in *.
  - rewrite Nat.add_0_r, app_nil_r. reflexivity.
  - replace (at_ + S (length data))%nat with (S at_ + length data)%nat by lia.
    rewrite IH by (rewrite length_insert; lia).
    rewrite (take_S_r _ _ c) by (apply list_lookup_insert_eq; lia).
    rewrite take_insert_ge by lia. rewrite <- app_assoc. reflexivity.
Qed.

Lemma cr_lines_app a : forall cur s,
    CR ∉ a -> cr_lines cur (a ++ s) = cr_lines (cur ++ a) s.
Proof.
  induction a as [|c a IH]; intros cur s Hnot; cbn [app cr_lines].
  - rewrite app_nil_r. reflexivity.
  - apply not_elem_of_cons in Hnot as [Hc Hnot].
    destruct (Ascii.eqb_spec c CR) as [->|_]; [congruence|].
    rewrite IH by exact Hnot. rewrite <- app_assoc. reflexivity.
Qed.

Lemma cr_lines_cut s i : forall cur rest,
    s !! i = Some CR -> CR ∉ take i s ->
    cr_lines cur (s ++ rest)
    = (cur ++ take i s) :: cr_lines [] (drop (S i) s ++ rest).
Proof.
  intros cur rest Hi Hnot.
  rewrite <- (take_drop i s) at 1. rewrite (drop_S _ _ _ Hi), <- app_assoc.
  rewrite cr_lines_app by exact Hnot. cbn [app cr_lines].
  rewrite Ascii.eqb_refl. reflexivity.
Qed.

(** Whatever the dispatcher answers, the lines it is given are the first
    lines of the stream, each whole: the bytes between two carriage
    returns, from the first to the last. *)
Lemma receive_loop_lines handle_cmd fuel :
  keeps_length handle_cmd ->
  forall n tmp pos cmd_buf cmd_len log w e log' w',
    short_frags tmp ->
    (pos <= length (hd [] tmp))%nat ->
    length cmd_buf = sizeof_cmd_buf ->
    (cmd_len <= sizeof_cmd_buf)%nat ->
    receive_loop handle_cmd fuel n tmp pos cmd_buf cmd_len log w
    = Ok (e, log', w') ->
    exists ls,
      log' = log ++ ls /\
      ls `prefix_of` cr_lines (take cmd_len cmd_buf) (drop pos (concat tmp)).
Proof.
  intros Hkeep.
  induction fuel as [|fuel IH]; intros n [|f rest] pos cmd_buf cmd_len log w
    e log' w' Hshort Hpos Hbuf Hcl;
    try (cbn; intros [= _ <- _]; exists []; rewrite app_nil_r;
         split; [reflexivity|apply prefix_nil]).
  apply short_frags_cons in Hshort as [Hf Hrest].
  cbn [hd] in Hpos. cbn [concat]. rewrite drop_app_le by exact Hpos.
  destruct (decide (sizeof_cmd_buf < cmd_len + turn_len f pos)%nat) as [Hl|Hl].
  { rewrite receive_loop_too_long by assumption.
    intros [= _ <- _]. exists []. rewrite app_nil_r.
    split; [reflexivity|apply prefix_nil]. }
  unfold turn_len in Hl.
  destruct (memchr (drop pos f) CR (length f - pos)) as [i|] eqn:E.
  - pose proof (memchr_lt _ _ _ _ E) as Hi.
    rewrite <- (length_drop f pos) in E.
    destruct (memchr_found _ _ _ E) as [Hcr Hnot].
    rewrite length_drop in E.
    rewrite (receive_loop_line _ _ _ _ _ _ _ _ _ _ i) by (assumption || lia).
    destruct (Nat.leb_spec sizeof_cmd_buf (cmd_len + i)) as [Hge|Hlt];
      [discriminate|]. cbn zeta.
    assert (Hline :
      take (cmd_len + i)
        (<[(cmd_len + i)%nat := NUL]>
           (store cmd_buf cmd_len (take i (drop pos f))))
      = take cmd_len cmd_buf ++ take i (drop pos f)).
    { rewrite take_insert_ge by lia.
      rewrite <- (take_store (take i (drop pos f)) cmd_buf cmd_len)
        by (rewrite length_take, length_drop; lia).
      rewrite length_take, length_drop. do 2 f_equal. lia. }
    rewrite Hline.
    rewrite (cr_lines_cut _ i _ _ Hcr Hnot).
    destruct (handle_cmd n _ _ w) as [[[ret buf2] w1]|flt] eqn:Eh;
      cbn [mbind outcome_bind]; [|discriminate].
    apply Hkeep in Eh. rewrite length_insert, length_store in Eh.
    destruct (ret <? 0).
    { intros [= _ <- _]. eexists. split; [reflexivity|].
      apply prefix_cons, prefix_nil. }
    destruct (Nat.eqb_spec (pos + i + 1) (length f)) as [Heq|Hne]; intros Hrun.
    + apply IH in Hrun as (ls & -> & Hls);
        [|exact Hrest|lia|congruence|lia].
      exists ((take cmd_len cmd_buf ++ take i (drop pos f)) :: ls).
      split; [rewrite <- app_assoc; reflexivity|].
      apply prefix_cons. rewrite take_0, drop_0 in Hls.
      rewrite drop_drop, drop_ge, app_nil_l by lia. exact Hls.
    + apply IH in Hrun as (ls & -> & Hls);
        [|apply short_frags_cons; tauto|cbn [hd]; lia|congruence|lia].
      exists ((take cmd_len cmd_buf ++ take i (drop pos f)) :: ls).
      split; [rewrite <- app_assoc; reflexivity|].
      apply prefix_cons. rewrite take_0 in Hls. cbn [concat] in Hls.
      rewrite drop_app_le in Hls by lia.
      rewrite drop_drop. replace (pos + S i)%nat with (pos + i + 1)%nat by lia.
      exact Hls.
  - assert (Hnot : CR ∉ drop pos f)
      by (apply memchr_none; rewrite length_drop; exact E).
    rewrite receive_loop_more by (assumption || lia).
    intros Hrun.
    apply IH in Hrun as (ls & -> & Hls);
      [|exact Hrest|lia|rewrite length_store; exact Hbuf|lia].
    exists ls. split; [reflexivity|].
    rewrite drop_0 in Hls. rewrite cr_lines_app by exact Hnot.
    rewrite <- (length_drop f pos), take_store in Hls
      by (rewrite length_drop; lia).
    exact Hls.
Qed.

Lemma handle_server_cmd_keeps_length `{Json} : keeps_length handle_server_cmd.
Proof.
  intros n cmd len w ret cmd' w' Hrun.
  destruct (handle_server_cmd_outcome n cmd len w) as (m & Hm & [E|E]);
    rewrite E in Hrun; injection Hrun as _ <- _; exact Hm.
Qed.

(** A line longer than the buffer: the guard stops the loop before
    anything is copied or dispatched. *)
Lemma receive_run_long_line handle_cmd n stack line rest w :
  (sizeof_cmd_buf < length line)%nat ->
  CR ∉ line ->
  Z.of_nat (length (line ++ rest)) < 2 ^ 16 ->
  receive_run handle_cmd n stack (Some (NetBuf [line ++ rest] 0)) 0 w
  = Ok (TooLong, [], w).
Proof.
  intros Hlen Hnot Hshort. unfold receive_run, receive_fuel.
  cbn [frags appdata negb Z.eqb].
  apply receive_loop_too_long; [lia|exact Hshort|].
  unfold turn_len. rewrite drop_0, Nat.sub_0_r.
  destruct (memchr (line ++ rest) CR (length (line ++ rest))) as [i|] eqn:E.
  - destruct (memchr_found _ _ _ E) as [Hi _].
    destruct (decide (i < length line)%nat) as [Hlt|Hge]; [|lia].
    exfalso. apply Hnot. rewrite lookup_app_l in Hi by exact Hlt.
    apply list_elem_of_lookup. eauto.
  - rewrite length_app. lia.
Qed.

(** C6 (as amended).  A line that does not fit the 256-byte buffer makes
    [receive_cb] leave its loop: the line is dropped and nothing is
    signalled, the function ends as for any delivery, with the world
    unchanged.  No part of a line is ever dispatched: the lines given to
    the dispatcher are whole lines of the delivery, each the bytes up to a
    carriage return, and none when the loop is left for a line too long. *)
Theorem oversized_line_is_dropped_silently `{Json} n stack w :
  (forall line rest,
      (256 < length line)%nat -> CR ∉ line ->
      Z.of_nat (length (line ++ rest)) < 2 ^ 16 ->
      receive_run handle_server_cmd n stack (Some (NetBuf [line ++ rest] 0)) 0 w
      = Ok (TooLong, [], w) /\
      receive_cb n stack (Some (NetBuf [line ++ rest] 0)) 0 w = Ok w) /\
  (forall b e log w',
      short_frags (frags b) ->
      (appdata b <= length (hd [] (frags b)))%nat ->
      receive_run handle_server_cmd n stack (Some b) 0 w = Ok (e, log, w') ->
      log `prefix_of` cr_lines [] (stream b) /\
      e <> OutOfFuel /\
      receive_cb n stack (Some b) 0 w = Ok w /\
      (e = TooLong -> log = [])).
Proof.
  split.
  - intros line rest Hlen Hnot Hshort.
    pose proof (receive_run_long_line handle_server_cmd n stack line rest w
                  Hlen Hnot Hshort) as Hrun.
    split; [exact Hrun|]. unfold receive_cb. rewrite Hrun. reflexivity.
  - intros b e log w' Hshort Hpos Hrun.
    assert (Hcb : receive_cb n stack (Some b) 0 w = Ok w').
    { unfold receive_cb. rewrite Hrun. reflexivity. }
    pose proof (receive_cb_inert _ _ _ _ _ _ Hcb) as ->.
    unfold receive_run in Hrun. cbn [negb Z.eqb] in Hrun.
    unfold stream. destruct (frags b) as [|f rest] eqn:Hfr; [discriminate|].
    split; [|split; [|split; [exact Hcb|]]].
    + apply (receive_loop_lines _ _ handle_server_cmd_keeps_length) in Hrun
        as (ls & -> & Hls); [ |exact Hshort|exact Hpos| |].
      * rewrite take_0 in Hls. exact Hls.
      * apply length_resize.
      * lia.
    + apply (receive_loop_fuel _ _ _ _ _ _ _ _ _ _ _ _ Hshort Hpos) in Hrun;
        [exact Hrun|]. unfold receive_fuel. lia.
    + intros ->. apply receive_loop_inert in Hrun as [_ [Hr|Hl]];
        [discriminate|exact Hl].
Qed.

Lemma oversized_line_is_dropped_silently_witness :
  let line := replicate 300 "a"%char in
  (256 < length line)%nat /\
  receive_run (handle_server_cmd (H := Sample.json)) Sample.client []
              (Some (NetBuf [line ++ CRLF] 0)) 0 Sample.idle
  = Ok (TooLong, [], Sample.idle) /\
  receive_cb (H := Sample.json) Sample.client []
             (Some (NetBuf [line ++ CRLF] 0)) 0 Sample.idle
  = Ok Sample.idle.
Proof.
  cbv zeta. split; [rewrite length_replicate; lia|].
  apply (proj1 (oversized_line_is_dropped_silently (H := Sample.json)
                  Sample.client [] Sample.idle)).
  - rewrite length_replicate. lia.
  - apply CR_not_in_replicate. discriminate.
  - rewrite length_app, length_replicate. unfold CRLF. cbn [length]. lia.
Defined.

(** C6, counterexample.  A delivery with a line of 300 bytes and a
    delivery with the first two bytes of a line end in the same way for
    the caller, though the loop was left for a line too long in the first
    and for lack of data in the second: nothing tells the caller that a
    line was too long. *)
Lemma line_too_long_is_not_signalled :
  let long := NetBuf [replicate 300 "a"%char ++ CRLF] 0 in
  let short := NetBuf [lit "PI"] 0 in
  receive_run (handle_server_cmd (H := Sample.json)) Sample.client [] (Some long)
              0 Sample.idle = Ok (TooLong, [], Sample.idle) /\
  receive_run (handle_server_cmd (H := Sample.json)) Sample.client [] (Some short)
              0 Sample.idle = Ok (Drained, [], Sample.idle) /\
  receive_cb (H := Sample.json) Sample.client [] (Some long) 0 Sample.idle
  = receive_cb (H := Sample.json) Sample.client [] (Some short) 0 Sample.idle.
Proof. repeat split; vm_compute; reflexivity. Qed.


(** * Further properties *)

(** ** Strings *)

Lemma strlen_nonnul s : forall j, (j < strlen s)%nat -> rd s j <> NUL.
Proof.
  induction s as [|c s IH]; intros j Hj; cbn [strlen] in Hj; [lia|].
  destruct (Ascii.eqb_spec c NUL) as [->|Hc]; [lia|].
  destruct j as [|j]; [exact Hc|]. rewrite rd_cons_S. apply IH. lia.
Qed.

Lemma strlen_least s : forall k, rd s k = NUL -> (strlen s <= k)%nat.
Proof.
  induction s as [|c s IH]; intros k Hk; cbn [strlen]; [lia|].
  destruct (Ascii.eqb_spec c NUL) as [->|Hc]; [lia|].
  destruct k as [|k]; [contradiction|].
  rewrite rd_cons_S in Hk. apply IH in Hk. lia.
Qed.

Lemma strlen_greatest s k :
  (forall j, (j < k)%nat -> rd s j <> NUL) -> (k <= strlen s)%nat.
Proof.
  intros Hk. destruct (decide (k <= strlen s)%nat) as [|Hgt]; [assumption|].
  exfalso. apply (Hk (strlen s)); [lia|apply rd_strlen].
Qed.

Lemma rd_take s n j : (j < n)%nat -> rd (take n s) j = rd s j.
Proof. intros Hj. unfold rd. rewrite lookup_take_lt by exact Hj. reflexivity. Qed.

Lemma isalnum_nonnul c : isalnum c = true -> c <> NUL.
Proof. intros H ->. discriminate. Qed.

(** ** Validators at an explicit length *)

Lemma is_sid_valid_loop_spec sid :
  forall n pos,
    is_sid_valid_loop sid n pos = true <->
    forall j, (j < n)%nat -> isalnum (rd sid (pos + j)) = true.
Proof.
  induction n as [|n IH]; intros pos; cbn [is_sid_valid_loop].
  - split; [intros _ j Hj; lia|reflexivity].
  - destruct (isalnum (rd sid pos)) eqn:E; cbn [negb].
    + rewrite IH. split.
      * intros Hn [|j] Hj; [rewrite Nat.add_0_r; exact E|].
        replace (pos + S j)%nat with (S pos + j)%nat by lia. apply Hn. lia.
      * intros Hn j Hj. replace (S pos + j)%nat with (pos + S j)%nat by lia.
        apply Hn. lia.
    + split; [discriminate|]. intros Hn. specialize (Hn 0%nat).
      rewrite Nat.add_0_r, E in Hn. apply Hn. lia.
Qed.

(** X1.  [is_sid_valid] accepts a non-null sid at length [len] exactly when
    its first [len] bytes are all alphanumeric; the length then does not
    reach past the terminator of the string.  A null sid is refused. *)
Theorem is_sid_valid_spec sid len :
  (is_sid_valid (Some sid) len = true <->
   (len <= strlen sid)%nat /\
   Forall (fun c => isalnum c = true) (take len sid)) /\
  is_sid_valid None len = false.
Proof.
  split; [|reflexivity]. unfold is_sid_valid. rewrite is_sid_valid_loop_spec.
  split.
  - intros Hall.
    assert (Hlen : (len <= strlen sid)%nat).
    { apply strlen_greatest. intros j Hj. apply isalnum_nonnul, (Hall j Hj). }
    split; [exact Hlen|]. apply Forall_forall. intros c Hc.
    apply list_elem_of_lookup in Hc as [j Hj].
    pose proof (lookup_lt_Some _ _ _ Hj) as Hlt. rewrite length_take in Hlt.
    rewrite <- (rd_lookup _ _ _ Hj), rd_take by lia. apply (Hall j). lia.
  - intros [Hlen Hall] j Hj. cbn [Nat.add].
    pose proof (strlen_le sid) as Hle.
    assert (Hin : (j < length (take len sid))%nat)
      by (rewrite length_take; lia).
    apply lookup_lt_is_Some_2 in Hin as [c Hc].
    rewrite <- (rd_take sid len j Hj), (rd_lookup _ _ _ Hc).
    rewrite Forall_forall in Hall. apply Hall.
    apply list_elem_of_lookup. eauto.
Qed.

(** Every byte the subject loop accepts is a character of the string. *)
Lemma is_subject_valid_loop_nonnul mem :
  forall n pos last,
    is_subject_valid_loop mem n pos last = true ->
    forall j, (j < n)%nat -> rd mem (pos + j) <> NUL.
Proof.
  induction n as [|n IH]; intros pos last Hok j Hj; [lia|].
  cbn [is_subject_valid_loop] in Hok.
  assert (Hc : rd mem pos <> NUL /\
               is_subject_valid_loop mem n (S pos) (rd mem pos) = true).
  { destruct (Ascii.eqb_spec (rd mem pos) ">") as [E|_].
    - rewrite E in *. destruct (negb _); [discriminate|]. split; [discriminate|exact Hok].
    - destruct (((rd mem pos =? ".") || (rd mem pos =? "*"))%char) eqn:Ew.
      + destruct (last =? rd mem pos)%char; [discriminate|].
        split; [|exact Hok]. intros E. rewrite E in Ew. discriminate.
      + destruct (isalnum (rd mem pos)) eqn:Ea; [|discriminate].
        split; [apply isalnum_nonnul, Ea|exact Hok]. }
  destruct Hc as [Hc Hrest]. destruct j as [|j].
  - rewrite Nat.add_0_r. exact Hc.
  - replace (pos + S j)%nat with (S pos + j)%nat by lia.
    apply (IH _ _ Hrest). lia.
Qed.

(** The loop against the recursive check of the bytes it looks at: they
    differ only in what follows the last byte when that byte is [>]. *)
Lemma is_subject_valid_loop_prefix mem :
  forall n pos last,
    (pos + n <= length mem)%nat ->
    is_subject_valid_loop mem n pos last
    = subject_ok last (take n (drop pos mem))
      && match n with
         | O => true
         | S k => negb (rd mem (pos + k) =? ">")%char
                  || (rd mem (pos + n) =? NUL)%char
         end.
Proof.
  induction n as [|n IH]; intros pos last Hlen; [reflexivity|].
  assert (Hpos : (pos < length mem)%nat) by lia.
  apply lookup_lt_is_Some_2 in Hpos as [c Hc].
  rewrite (drop_S _ _ _ Hc). cbn [take subject_ok is_subject_valid_loop].
  rewrite (rd_lookup _ _ _ Hc), IH by lia.
  destruct n as [|n].
  - rewrite take_0, rd_nil, Nat.add_0_r, (rd_lookup _ _ _ Hc). cbn [subject_ok].
    destruct (c =? ">")%char; cbn.
    + destruct (rd mem (pos + 1) =? NUL)%char; reflexivity.
    + rewrite !andb_true_r. destruct ((c =? ".") || (c =? "*"))%char.
      * destruct (last =? c)%char; reflexivity.
      * destruct (isalnum c); reflexivity.
  - assert (Hnext : rd (take (S n) (drop (S pos) mem)) 0 = rd mem (pos + 1)).
    { rewrite rd_take, rd_drop by lia. f_equal. lia. }
    rewrite Hnext.
    replace (S pos + n)%nat with (pos + S n)%nat by lia.
    replace (S pos + S n)%nat with (pos + S (S n))%nat by lia.
    destruct (c =? ">")%char.
    + destruct (rd mem (pos + 1) =? NUL)%char; reflexivity.
    + destruct ((c =? ".") || (c =? "*"))%char.
      * destruct (last =? c)%char; reflexivity.
      * destruct (isalnum c); reflexivity.
Qed.

(** X2.  [is_subject_valid] accepts a non-null subject at length [len]
    exactly when [len] does not reach past the terminator, the first [len]
    bytes satisfy the subject grammar, and, if they contain [>], the string
    ends with them: a prefix ending in [>] of a longer string is refused. *)
Theorem is_subject_valid_spec subject len :
  is_subject_valid (Some subject) len = true <->
  (len <= strlen subject)%nat /\
  subject_grammar (take len subject) /\
  (">"%char ∈ take len subject -> len = strlen subject).
Proof.
  unfold is_subject_valid. pose proof (strlen_le subject) as Hle.
  split.
  - intros Hok.
    assert (Hlen : (len <= strlen subject)%nat).
    { apply strlen_greatest. intros j Hj.
      apply (is_subject_valid_loop_nonnul _ _ _ _ Hok j Hj). }
    rewrite is_subject_valid_loop_prefix in Hok by (cbn; lia).
    rewrite drop_0 in Hok. apply andb_true_iff in Hok as [Hg Hend].
    apply subject_ok_grammar_after, grammar_after_NUL in Hg.
    split; [exact Hlen|]. split; [exact Hg|].
    intros Hin. apply list_elem_of_lookup in Hin as [i Hi].
    destruct Hg as (_ & _ & Hgt). specialize (Hgt i Hi).
    rewrite length_take in Hgt.
    destruct len as [|k]; [lia|]. assert (i = k) as -> by lia.
    cbn [Nat.add] in Hend. rewrite <- (rd_take subject (S k) k), (rd_lookup _ _ _ Hi)
      in Hend by lia.
    rewrite Ascii.eqb_refl in Hend. cbn [negb orb] in Hend. apply Ascii.eqb_eq, strlen_least in Hend. lia.
  - intros (Hlen & Hg & Hend).
    rewrite is_subject_valid_loop_prefix by (cbn; lia).
    rewrite drop_0. apply andb_true_iff. split.
    + apply subject_ok_grammar_after, grammar_after_NUL, Hg.
    + destruct len as [|k]; [reflexivity|]. cbn [Nat.add].
      destruct (Ascii.eqb_spec (rd subject k) ">") as [E|_]; [|reflexivity].
      cbn [negb orb]. apply Ascii.eqb_eq.
      assert (Hin : ">"%char ∈ take (S k) subject).
      { apply list_elem_of_lookup. exists k.
        assert (Hk : (k < length (take (S k) subject))%nat)
          by (rewrite length_take; lia).
        apply lookup_lt_is_Some_2 in Hk as [c Hc].
        rewrite <- E, <- (rd_take subject (S k) k), (rd_lookup _ _ _ Hc) by lia.
        exact Hc. }
      rewrite (Hend Hin). apply rd_strlen.
Qed.

(** ** Transmission *)

Lemma transmitv_loop_result c iov :
  forall buf r,
    transmitv_loop c buf iov = Ok r ->
    match r with
    | Some b => exists segs,
        mapM (M := outcome) iov_bytes iov = Ok segs /\ b = buf ++ segs
    | None => True
    end.
Proof.
  induction iov as [|v iov IH]; intros buf r; cbn.
  - intros [= <-]. exists []. rewrite app_nil_r. tauto.
  - destruct (iov_bytes v) as [d|f]; cbn; [|discriminate].
    destruct (nbuf_append c buf d); [|intros [= <-]; exact I].
    intros Hr. specialize (IH _ _ Hr). destruct r as [b|]; [|exact I].
    destruct IH as (segs & -> & ->). cbn.
    exists (d :: segs). rewrite <- app_assoc. tauto.
Qed.

(** X3.  [transmitv] sends a command whole or not at all: either it
    answers [-ENOMEM] and nothing has been handed to [net_context_send], or
    one buffer holding every segment in order has been, and the answer is
    that of [net_context_send]. *)
Theorem transmitv_all_or_nothing c iov w ret w' :
  transmitv c iov w = Ok (ret, w') ->
  (ret = - ENOMEM /\ w' = w) \/
  (exists segs,
      mapM (M := outcome) iov_bytes iov = Ok segs /\
      ret = context_send c segs /\ w' = send segs w).
Proof.
  unfold transmitv. destruct (nbuf_get_tx c); cbn [negb];
    [|intros [= <- <-]; tauto].
  destruct (transmitv_loop c [] iov) as [r|f] eqn:E; cbn [mbind outcome_bind];
    [|discriminate].
  apply transmitv_loop_result in E. destruct r as [b|].
  - destruct E as (segs & Hsegs & ->). intros [= <- <-]. right.
    exists segs. tauto.
  - intros [= <- <-]. tauto.
Qed.

Lemma transmitv_all_or_nothing_witness :
  let iov := [TRANSMITV_LITERAL (lit "PONG"); TRANSMITV_LITERAL CRLF] in
  transmitv Sample.net_up iov Sample.idle
    = Ok (0, send [lit "PONG"; CRLF] Sample.idle) /\
  ((0 = - ENOMEM /\ send [lit "PONG"; CRLF] Sample.idle = Sample.idle) \/
   (exists segs,
       mapM (M := outcome) iov_bytes iov = Ok segs /\
       0 = context_send Sample.net_up segs /\
       send [lit "PONG"; CRLF] Sample.idle = send segs Sample.idle)).
Proof.
  cbv zeta. split; [reflexivity|].
  apply (transmitv_all_or_nothing Sample.net_up
           [TRANSMITV_LITERAL (lit "PONG"); TRANSMITV_LITERAL CRLF]
           Sample.idle 0 (send [lit "PONG"; CRLF] Sample.idle)).
  reflexivity.
Defined.

(** ** Builders *)

(** X4.  The bytes [nats_subscribe] puts on the wire for arguments given
    with their lengths have passed the validators: whenever it sends, the
    command is [SUB <subject> [<queue_group>] <sid>\r\n] with a subject
    that satisfies the grammar and an alphanumeric sid, both inside their
    strings.  The queue group is sent as it is given. *)
Theorem nats_subscribe_sends_checked_bytes n s sl q ql i il w ret w' :
  sl <> 0%nat -> il <> 0%nat ->
  nats_subscribe n s sl q ql i il w = Ok (ret, w') ->
  w' = w \/
  exists sb ib b,
    s = Some sb /\ i = Some ib /\ w' = send b w /\
    wire b = lit "SUB " ++ take sl sb ++ lit " "
               ++ match q with
                  | Some g => arg_bytes g ql ++ lit " "
                  | None => []
                  end
               ++ take il ib ++ CRLF /\
    subject_grammar (take sl sb) /\
    Forall (fun c => isalnum c = true) (take il ib).
Proof.
  intros Hsl Hil. unfold nats_subscribe.
  destruct (is_subject_valid s sl) eqn:Hs; cbn [negb]; [|intros [= _ <-]; tauto].
  destruct (is_sid_valid i il) eqn:Hi; cbn [negb]; [|intros [= _ <-]; tauto].
  destruct (is_subject_valid_Some _ _ Hs) as [sb ->].
  destruct (is_sid_valid_Some _ _ Hi) as [ib ->].
  assert (Hslen : (sl <= length sb)%nat).
  { pose proof (strlen_le sb).
    enough (sl <= strlen sb)%nat by lia. apply strlen_greatest. intros j Hj.
    apply (is_subject_valid_loop_nonnul _ _ _ _ Hs j Hj). }
  assert (Hgram : subject_grammar (take sl sb)).
  { unfold is_subject_valid in Hs.
    rewrite is_subject_valid_loop_prefix in Hs by (cbn; lia).
    rewrite drop_0 in Hs. apply andb_true_iff in Hs as [Hg _].
    apply grammar_after_NUL, subject_ok_grammar_after, Hg. }
  assert (Hsid : forall j, (j < il)%nat -> isalnum (rd ib j) = true).
  { intros j Hj. apply (proj1 (is_sid_valid_loop_spec ib il 0) Hi j Hj). }
  assert (Hilen : (il <= length ib)%nat).
  { pose proof (strlen_le ib).
    enough (il <= strlen ib)%nat by lia. apply strlen_greatest. intros j Hj.
    apply isalnum_nonnul, Hsid, Hj. }
  assert (Halnum : Forall (fun c => isalnum c = true) (take il ib)).
  { apply Forall_forall. intros c Hc. apply list_elem_of_lookup in Hc as [j Hj].
    pose proof (lookup_lt_Some _ _ _ Hj) as Hlt. rewrite length_take in Hlt.
    rewrite <- (rd_lookup _ _ _ Hj), rd_take by lia. apply Hsid. lia. }
  assert (Hsb : arg_bytes sb sl = take sl sb).
  { unfold arg_bytes. destruct sl; [contradiction|]. apply bytes_at_take, Hslen. }
  assert (Hib : arg_bytes ib il = take il ib).
  { unfold arg_bytes. destruct il; [contradiction|]. apply bytes_at_take, Hilen. }
  destruct q as [g|]; rewrite !len_or_strlen_Some; cbn [mbind outcome_bind];
    intros Ht; apply transmitv_sends in Ht as [->|(segs & Hsegs & ->)];
    try tauto; right; exists sb, ib, segs; do 3 (split; [reflexivity|]);
    (split; [|split; assumption]).
  - assert (E : segs = [lit "SUB "; arg_bytes sb sl; lit " "; arg_bytes g ql;
                        lit " "; arg_bytes ib il; CRLF])
      by (symmetry; injection Hsegs as <-; reflexivity).
    rewrite E. unfold wire. cbn [concat].
    rewrite Hsb, Hib, app_nil_r, <- !app_assoc. reflexivity.
  - assert (E : segs = [lit "SUB "; arg_bytes sb sl; lit " "; arg_bytes ib il;
                        CRLF])
      by (symmetry; injection Hsegs as <-; reflexivity).
    rewrite E. unfold wire. cbn [concat].
    rewrite Hsb, Hib, app_nil_r. reflexivity.
Qed.

Lemma nats_subscribe_sends_checked_bytes_witness :
  let w1 := send [lit "SUB "; lit "foo.bar"; lit " "; lit "s1"; CRLF] Sample.idle in
  nats_subscribe Sample.client (Some (lit "foo.bar")) 7 None 0 (Some (lit "s1")) 2
                 Sample.idle = Ok (0, w1) /\
  (w1 = Sample.idle \/
   exists sb ib b,
     Some (lit "foo.bar") = Some sb /\ Some (lit "s1") = Some ib /\
     w1 = send b Sample.idle /\
     wire b = lit "SUB " ++ take 7 sb ++ lit " " ++ [] ++ take 2 ib ++ CRLF /\
     subject_grammar (take 7 sb) /\
     Forall (fun c => isalnum c = true) (take 2 ib)).
Proof.
  cbv zeta. split; [reflexivity|].
  apply (nats_subscribe_sends_checked_bytes Sample.client (Some (lit "foo.bar")) 7
           None 0 (Some (lit "s1")) 2 Sample.idle 0);
    [discriminate|discriminate|reflexivity].
Defined.








(** X5.  [nats_unsubscribe], given a sid it accepts, sends
    [UNSUB <sid>\r\n] when [max_msgs] is 0 and [UNSUB <sid> <max_msgs>\r\n],
    the count in decimal, otherwise; a count whose text does not fit the
    buffer of [3 * sizeof(size_t)] bytes is answered [-ENOMEM] and nothing
    is sent. *)
Theorem nats_unsubscribe_wire n i il max_msgs w :
  accepting (conn n) ->
  is_sid_valid (Some i) il = true ->
  ((length (zu max_msgs) < 3 * sizeof_size_t)%nat ->
   exists b,
     nats_unsubscribe n (Some i) il max_msgs w
       = Ok (context_send (conn n) b, send b w) /\
     wire b = lit "UNSUB " ++ arg_bytes i il
                ++ (if max_msgs is O then [] else lit " " ++ zu max_msgs)
                ++ CRLF) /\
  (max_msgs <> 0%nat -> (3 * sizeof_size_t <= length (zu max_msgs))%nat ->
   nats_unsubscribe n (Some i) il max_msgs w = Ok (- ENOMEM, w)).
Proof.
  intros Hacc Hi. unfold nats_unsubscribe. rewrite Hi. cbn [negb]. split.
  - intros Hfit. destruct max_msgs as [|m].
    + cbn [Nat.eqb negb]. rewrite len_or_strlen_Some; cbn [mbind outcome_bind].
      eexists. split.
      * apply transmitv_accepting; [exact Hacc|reflexivity].
      * unfold wire. cbn [concat]. rewrite app_nil_r. reflexivity.
    + cbn [Nat.eqb negb].
      destruct (snprintk_zu_fits _ _ Hfit) as [-> Hstr].
      rewrite (snprintk_fits_tests _ _ Hfit).
      rewrite len_or_strlen_Some; cbn [mbind outcome_bind].
      eexists. split.
      * apply transmitv_accepting; [exact Hacc|].
        cbn [mapM]. rewrite Hstr. reflexivity.
      * unfold wire. cbn [concat]. rewrite app_nil_r, <- !app_assoc. reflexivity.
  - intros Hm Hbig. destruct max_msgs as [|m]; [contradiction|].
    cbn [Nat.eqb negb]. unfold snprintk_zu.
    destruct (_ || _) eqn:E; [reflexivity|].
    apply snprintk_tests_fit in E. lia.
Qed.

Lemma nats_unsubscribe_wire_witness :
  accepting (conn Sample.client) /\
  is_sid_valid (Some (lit "s1")) 2 = true /\
  exists b,
    nats_unsubscribe Sample.client (Some (lit "s1")) 2 5 Sample.idle
      = Ok (0, send b Sample.idle) /\
    wire b = lit "UNSUB s1 5" ++ CRLF.
Proof.
  split; [exact accepting_net_up|]. split; [reflexivity|].
  destruct (nats_unsubscribe_wire Sample.client (lit "s1") 2 5 Sample.idle
              accepting_net_up eq_refl) as [Hsend _].
  destruct (Hsend ltac:(vm_compute; lia)) as (b & Hrun & Hwire).
  exists b. split; [exact Hrun|exact Hwire].
Defined.

(** ** The file's [strsep] *)

Lemma char_in_set_elem c set : char_in_set c set = true <-> c ∈ set.
Proof.
  unfold char_in_set. rewrite existsb_exists. split.
  - intros (x & Hx & E). apply Ascii.eqb_eq in E as ->.
    apply list_elem_of_In, Hx.
  - intros Hc. exists c. split; [apply list_elem_of_In, Hc|apply Ascii.eqb_refl].
Qed.

Lemma cstr_lookup s j : (j < strlen s)%nat -> cstr s !! j = Some (rd s j).
Proof.
  intros Hj. pose proof (strlen_le s) as Hle. unfold cstr.
  rewrite lookup_take_lt by exact Hj. unfold rd.
  destruct (lookup_lt_is_Some_2 s j) as [c ->]; [lia|reflexivity].
Qed.

Lemma length_cstr s : length (cstr s) = strlen s.
Proof. unfold cstr. pose proof (strlen_le s). rewrite length_take. lia. Qed.

Lemma elem_of_cstr c s :
  c ∈ cstr s <-> exists j, (j < strlen s)%nat /\ rd s j = c.
Proof.
  rewrite list_elem_of_lookup. split.
  - intros [j Hj]. pose proof (lookup_lt_Some _ _ _ Hj) as Hlt.
    rewrite length_cstr in Hlt. exists j. split; [exact Hlt|].
    rewrite cstr_lookup in Hj by exact Hlt. congruence.
  - intros (j & Hj & <-). exists j. apply cstr_lookup, Hj.
Qed.

(** [strchr] finds the first occurrence in the string. *)
Lemma strchr_Some d : d <> NUL -> forall s i,
    strchr s d = Some i ->
    (i < strlen s)%nat /\ rd s i = d /\ d ∉ take i s.
Proof.
  intros Hd. induction s as [|x s IH]; intros i; cbn [strchr strlen].
  - destruct (Ascii.eqb_spec d NUL); [contradiction|discriminate].
  - destruct (Ascii.eqb_spec x d) as [->|Hx].
    + intros [= <-]. destruct (Ascii.eqb_spec d NUL); [contradiction|].
      split; [lia|]. split; [reflexivity|]. rewrite take_0. apply not_elem_of_nil.
    + destruct (Ascii.eqb_spec x NUL) as [->|Hn]; [discriminate|].
      destruct (strchr s d) as [j|] eqn:E; [|discriminate].
      intros [= <-]. destruct (IH j eq_refl) as (Hj & Hr & Hnot).
      split; [lia|]. split; [exact Hr|]. cbn [take].
      rewrite not_elem_of_cons. split; [congruence|exact Hnot].
Qed.

Lemma strchr_None d : d <> NUL -> forall s,
    strchr s d = None -> d ∉ cstr s.
Proof.
  intros Hd. unfold cstr.
  induction s as [|x s IH]; cbn [strchr strlen]; [intros _; apply not_elem_of_nil|].
  destruct (Ascii.eqb_spec x d) as [->|Hx]; [discriminate|].
  destruct (Ascii.eqb_spec x NUL) as [->|Hn]; [intros _; apply not_elem_of_nil|].
  destruct (strchr s d) as [j|] eqn:E; [discriminate|].
  intros _. cbn [take]. rewrite not_elem_of_cons.
  split; [congruence|apply IH; reflexivity].
Qed.

(** How far [strsep] moves over the delimiters that follow the cut. *)
Lemma strsep_skip_spec delims : forall s,
    let k := strsep_skip delims s in
    (k <= strlen s)%nat /\
    (forall j, (j < k)%nat -> rd s j ∈ delims) /\
    (rd s k = NUL \/ rd s k ∉ delims).
Proof.
  induction s as [|c s IH]; cbn [strsep_skip strlen].
  - split; [lia|]. split; [intros j Hj; lia|]. left. reflexivity.
  - destruct (Ascii.eqb_spec c NUL) as [->|Hc].
    + split; [lia|]. split; [intros j Hj; lia|]. left. reflexivity.
    + destruct (char_in_set c delims) eqn:E; cbn [negb].
      * destruct IH as (Hk & Hin & Hend). split; [lia|]. split; [|exact Hend].
        intros [|j] Hj; [apply char_in_set_elem, E|]. rewrite rd_cons_S.
        apply Hin. lia.
      * split; [lia|]. split; [intros j Hj; lia|]. right. cbn.
        rewrite <- char_in_set_elem, E. discriminate.
Qed.

Lemma strlen_cut s i :
  (i < strlen s)%nat ->
  strlen (<[i := NUL]> s) = i /\ cstr (<[i := NUL]> s) = take i s.
Proof.
  intros Hi. pose proof (strlen_le s) as Hle.
  assert (Hlen : strlen (<[i := NUL]> s) = i).
  { apply Nat.le_antisymm.
    - apply strlen_least, rd_insert_NUL.
    - apply strlen_greatest. intros j Hj. unfold rd.
      rewrite list_lookup_insert_ne by lia. apply (strlen_nonnul s j). lia. }
  split; [exact Hlen|]. unfold cstr. rewrite Hlen. apply take_insert_ge. lia.
Qed.

Lemma strlen_drop s k :
  (k <= strlen s)%nat -> strlen (drop k s) = (strlen s - k)%nat.
Proof.
  revert k. induction s as [|c s IH]; intros k Hk; cbn [strlen] in *.
  - rewrite drop_nil. reflexivity.
  - destruct (Ascii.eqb_spec c NUL) as [->|Hc].
    + assert (k = 0)%nat as -> by lia. cbn. reflexivity.
    + destruct k as [|k]; cbn [drop strlen].
      * destruct (Ascii.eqb_spec c NUL); [contradiction|]. reflexivity.
      * rewrite IH by lia. lia.
Qed.

Lemma strsep_loop_found mem p delims :
  NUL ∉ delims ->
  forall todo before,
    delims = before ++ todo ->
    Forall (fun d => d ∉ cstr (drop p mem)) before ->
    match strsep_loop mem p todo delims with
    | (Some q, mem') =>
        exists before' d after i,
          delims = before' ++ d :: after /\
          Forall (fun d' => d' ∉ cstr (drop p mem)) before' /\
          strchr (drop p mem) d = Some i /\
          mem' = <[(p + i)%nat := NUL]> mem /\
          q = (S (p + i) + strsep_skip delims (drop (S (p + i)) mem'))%nat
    | (None, mem') =>
        mem' = mem /\ Forall (fun d => d ∉ cstr (drop p mem)) delims
    end.
Proof.
  intros Hnul. induction todo as [|d todo IH]; intros before Hdel Hbefore;
    cbn [strsep_loop].
  - rewrite app_nil_r in Hdel. subst before. tauto.
  - destruct (strchr (drop p mem) d) as [i|] eqn:E.
    + exists before, d, todo, i. tauto.
    + apply (IH (before ++ [d])).
      * rewrite <- app_assoc. exact Hdel.
      * apply Forall_app. split; [exact Hbefore|]. apply Forall_singleton.
        apply strchr_None; [|exact E]. intros ->. apply Hnul.
        rewrite Hdel. apply elem_of_app. right. apply list_elem_of_here.
Qed.

(** X6.  The file's [strsep], for a set of delimiters and a string at
    offset [p].  When no delimiter of the set occurs in the string it
    answers NULL and changes nothing.  Otherwise it cuts at the first
    occurrence of the first delimiter of the set that occurs at all (not
    at the earliest delimiter): it writes one NUL there, which makes the
    string the token before it, and answers with a pointer past the cut and
    the delimiters that follow it, at a byte that is no delimiter, never
    beyond the terminator of the string. *)
Theorem strsep_spec mem p delims :
  NUL ∉ delims ->
  match strsep mem (Some p) delims with
  | (Some q, mem') =>
      exists before d after i,
        delims = before ++ d :: after /\
        Forall (fun d' => d' ∉ cstr (drop p mem)) before /\
        (i < strlen (drop p mem))%nat /\
        rd mem (p + i) = d /\ (d ∉ take i (drop p mem)) /\
        mem' = <[(p + i)%nat := NUL]> mem /\
        cstr (drop p mem') = take i (drop p mem) /\
        (p + i < q <= p + strlen (drop p mem))%nat /\
        (forall j, (p + i < j < q)%nat -> rd mem j ∈ delims) /\
        rd mem q ∉ delims
  | (None, mem') =>
      mem' = mem /\ forall d, d ∈ delims -> d ∉ cstr (drop p mem)
  end.
Proof.
  intros Hnul. unfold strsep.
  pose proof (strsep_loop_found mem p delims Hnul delims [] eq_refl
                (Forall_nil_2 _)) as Hloop.
  destruct (strsep_loop mem p delims delims) as [[q|] mem'].
  - destruct Hloop as (before & d & after & i & Hdel & Hbefore & Hchr & -> & ->).
    assert (Hd : d <> NUL).
    { intros ->. apply Hnul. rewrite Hdel. apply elem_of_app. right.
      apply list_elem_of_here. }
    destruct (strchr_Some d Hd _ _ Hchr) as (Hi & Hrd & Hnot).
    rewrite rd_drop in Hrd.
    exists before, d, after, i.
    rewrite (drop_insert_lt mem (S (p + i)) (p + i)) by lia.
    pose proof (strsep_skip_spec delims (drop (S (p + i)) mem)) as Hskip.
    cbv zeta in Hskip. destruct Hskip as (Hk & Hin & Hend).
    assert (Hlen : strlen (drop (S (p + i)) mem)
                   = (strlen (drop p mem) - S i)%nat).
    { rewrite <- strlen_drop by lia. rewrite drop_drop. do 2 f_equal. lia. }
    rewrite Hlen in Hk.
    split; [exact Hdel|]. split; [exact Hbefore|]. split; [exact Hi|].
    split; [exact Hrd|]. split; [exact Hnot|]. split; [reflexivity|].
    split; [|split; [lia|split]].
    + rewrite (drop_insert_ge mem p (p + i)) by lia.
      replace (p + i - p)%nat with i by lia. apply strlen_cut, Hi.
    + intros j Hj. specialize (Hin (j - S (p + i))%nat).
      rewrite rd_drop in Hin. replace (S (p + i) + (j - S (p + i)))%nat with j in Hin
        by lia.
      apply Hin. lia.
    + rewrite rd_drop in Hend. destruct Hend as [Hend|Hend]; [|exact Hend].
      rewrite Hend. exact Hnul.
  - destruct Hloop as [-> Hall]. split; [reflexivity|].
    intros d Hd. rewrite Forall_forall in Hall. apply Hall, Hd.
Qed.

Lemma strsep_spec_witness :
  let mem := lit "a" ++ [HT] ++ lit "b  c" in
  (NUL ∉ [SP; HT]) /\
  strsep mem (Some 0%nat) [SP; HT]
  = (Some 5%nat, lit "a" ++ [HT] ++ lit "b" ++ [NUL] ++ lit " c") /\
  match strsep mem (Some 0%nat) [SP; HT] with
  | (Some q, mem') =>
      exists before d after i,
        [SP; HT] = before ++ d :: after /\
        Forall (fun d' => d' ∉ cstr (drop 0 mem)) before /\
        (i < strlen (drop 0 mem))%nat /\
        rd mem (0 + i) = d /\ (d ∉ take i (drop 0 mem)) /\
        mem' = <[(0 + i)%nat := NUL]> mem /\
        cstr (drop 0 mem') = take i (drop 0 mem) /\
        (0 + i < q <= 0 + strlen (drop 0 mem))%nat /\
        (forall j, (0 + i < j < q)%nat -> rd mem j ∈ [SP; HT]) /\
        rd mem q ∉ [SP; HT]
  | (None, mem') =>
      mem' = mem /\ forall d, d ∈ [SP; HT] -> d ∉ cstr (drop 0 mem)
  end.
Proof.
  cbv zeta.
  assert (Hnul : NUL ∉ [SP; HT]).
  { intros H. apply elem_of_cons in H as [H|H]; [discriminate|].
    apply elem_of_cons in H as [H|H]; [discriminate|].
    apply elem_of_nil in H. exact H. }
  split; [exact Hnul|]. split; [reflexivity|].
  apply (strsep_spec (lit "a" ++ [HT] ++ lit "b  c") 0 [SP; HT] Hnul).
Defined.

(** ** The operation table *)

Lemma bytes_at_S p n : bytes_at p (S n) = rd p 0 :: bytes_at (drop 1 p) n.
Proof.
  unfold bytes_at. cbn [seq map]. f_equal.
  rewrite <- seq_shift, map_map. apply map_ext. intros j.
  rewrite rd_drop. reflexivity.
Qed.

(** [strncmp] against an operation, at the length of the operation. *)
Lemma strncmp_op op : NUL ∉ op -> forall cmd,
    strncmp op cmd (length op) = 0 <-> bytes_at cmd (length op) = op.
Proof.
  induction op as [|x op IH]; intros Hnul cmd; [split; reflexivity|].
  apply not_elem_of_cons in Hnul as [Hx Hnul].
  cbn [length strncmp]. rewrite rd_cons_0, bytes_at_S. cbn [drop].
  rewrite drop_0.
  destruct (Ascii.eqb_spec x (rd cmd 0)) as [E|E].
  - destruct (Ascii.eqb_spec x NUL) as [->|_]; [congruence|].
    rewrite IH by exact Hnul. rewrite <- E. split; [intros ->; reflexivity|].
    intros [= ->]. reflexivity.
  - split; [|intros [= E' _]; congruence].
    intros H. apply code_inj in H. contradiction.
Qed.

Lemma cmds_find_entry op h table cmd len :
  NUL ∉ op ->
  cmds_find ((op, length op, h) :: table) cmd len
  = if bool_decide (bytes_at cmd len = op) then Some h
    else cmds_find table cmd len.
Proof.
  intros Hnul. cbn [cmds_find].
  destruct (Nat.eqb_spec len (length op)) as [->|Hne]; cbn [negb].
  - destruct (Z.eqb_spec (strncmp op cmd (length op)) 0) as [E|E].
    + rewrite bool_decide_eq_true_2; [reflexivity|]. apply strncmp_op; assumption.
    + rewrite bool_decide_eq_false_2; [reflexivity|]. intros H. apply E.
      apply strncmp_op; assumption.
  - rewrite bool_decide_eq_false_2; [reflexivity|]. intros H. apply Hne.
    rewrite <- H. unfold bytes_at. rewrite length_map, length_seq. reflexivity.
Qed.

Lemma lit_nonnul_5 :
  (NUL ∉ lit "INFO") /\ (NUL ∉ lit "MSG") /\ (NUL ∉ lit "PING") /\
  (NUL ∉ lit "+OK") /\ (NUL ∉ lit "-ERR").
Proof.
  repeat split; intros H; repeat (apply elem_of_cons in H as [H|H];
    [discriminate|]); apply elem_of_nil in H; exact H.
Qed.

(** X7.  The table loop of [handle_server_cmd] matches by exact length and
    case-sensitive content: given a command and a length, it picks the
    handler of the operation that the first [len] bytes of the command
    spell, and none when they spell no operation (a prefix of an operation,
    an operation followed by more, another case). *)
Theorem cmds_find_exact `{Json} cmd len :
  cmds_find cmds cmd len =
  if bool_decide (bytes_at cmd len = lit "INFO") then Some handle_server_info
  else if bool_decide (bytes_at cmd len = lit "MSG") then Some handle_server_msg
  else if bool_decide (bytes_at cmd len = lit "PING") then Some handle_server_ping
  else if bool_decide (bytes_at cmd len = lit "+OK") then Some ignore
  else if bool_decide (bytes_at cmd len = lit "-ERR") then Some ignore
  else None.
Proof.
  destruct lit_nonnul_5 as (H1 & H2 & H3 & H4 & H5).
  unfold cmds, CMD.
  rewrite (cmds_find_entry _ _ _ _ _ H1), (cmds_find_entry _ _ _ _ _ H2),
    (cmds_find_entry _ _ _ _ _ H3), (cmds_find_entry _ _ _ _ _ H4),
    (cmds_find_entry _ _ _ _ _ H5).
  reflexivity.
Qed.

(** ** The MSG handler and the lines it can be given *)

Lemma rd_insert_ne (mem : list char) i j x : i <> j -> rd (<[i := x]> mem) j = rd mem j.
Proof. intros Hne. unfold rd. rewrite list_lookup_insert_ne by exact Hne. reflexivity. Qed.

(** Where [strsep] cuts and what it returns, inside the string. *)
Lemma strsep_within mem p delims q mem' :
  NUL ∉ delims ->
  strsep mem (Some p) delims = (Some q, mem') ->
  exists i d,
    (i < strlen (drop p mem))%nat /\ d ∈ delims /\ rd mem (p + i) = d /\
    mem' = <[(p + i)%nat := NUL]> mem /\
    (p + i < q <= p + strlen (drop p mem))%nat.
Proof.
  intros Hnul Hsep. unfold strsep in Hsep.
  pose proof (strsep_loop_found mem p delims Hnul delims [] eq_refl
                (Forall_nil_2 _)) as Hloop.
  rewrite Hsep in Hloop.
  destruct Hloop as (before & d & after & i & Hdel & _ & Hchr & -> & ->).
  assert (Hin : d ∈ delims).
  { rewrite Hdel. apply elem_of_app. right. apply list_elem_of_here. }
  assert (Hd : d <> NUL) by (intros ->; contradiction).
  destruct (strchr_Some d Hd _ _ Hchr) as (Hi & Hrd & _).
  rewrite rd_drop in Hrd. exists i, d.
  split; [exact Hi|]. split; [exact Hin|]. split; [exact Hrd|].
  split; [reflexivity|].
  rewrite (drop_insert_lt mem (S (p + i)) (p + i)) by lia.
  pose proof (strsep_skip_spec delims (drop (S (p + i)) mem)) as Hskip.
  cbv zeta in Hskip. destruct Hskip as (Hk & _ & _).
  assert (Hlen : strlen (drop (S (p + i)) mem)
                 = (strlen (drop p mem) - S i)%nat).
  { rewrite <- strlen_drop by lia. rewrite drop_drop. do 2 f_equal. lia. }
  lia.
Qed.

Lemma sliced_start payload len : sliced payload len (<[len := NUL]> payload).
Proof.
  split; [apply rd_insert_NUL|]. intros j.
  destruct (decide (len = j)) as [<-|Hne].
  - left. apply rd_insert_NUL.
  - right. apply rd_insert_ne, Hne.
Qed.

Lemma sliced_strlen payload len m p :
  sliced payload len m -> (p <= len)%nat ->
  (p + strlen (drop p m) <= len)%nat.
Proof.
  intros [Hend _] Hp.
  enough (strlen (drop p m) <= len - p)%nat by lia.
  apply strlen_least. rewrite rd_drop. replace (p + (len - p))%nat with len by lia.
  exact Hend.
Qed.

(** A cut keeps the unit sliced and the returned pointer inside it. *)
Lemma sliced_strsep payload len m p delims q m' :
  NUL ∉ delims ->
  sliced payload len m -> (p <= len)%nat ->
  strsep m (Some p) delims = (Some q, m') ->
  sliced payload len m' /\ (q <= len)%nat /\
  exists k, (k < len)%nat /\ rd payload k ∈ delims.
Proof.
  intros Hnul Hsl Hp Hsep.
  destruct (strsep_within _ _ _ _ _ Hnul Hsep) as (i & d & Hi & Hd & Hrd & -> & Hq).
  pose proof (sliced_strlen _ _ _ _ Hsl Hp) as Hlen.
  destruct Hsl as [Hend Hall]. split; [split|split].
  - rewrite rd_insert_ne by lia. exact Hend.
  - intros j. destruct (decide ((p + i)%nat = j)) as [<-|Hne].
    + left. apply rd_insert_NUL.
    + rewrite rd_insert_ne by exact Hne. apply Hall.
  - lia.
  - exists (p + i)%nat. split; [lia|].
    destruct (Hall (p + i)%nat) as [E|E].
    + exfalso. apply Hnul. rewrite <- E, Hrd. exact Hd.
    + rewrite <- E, Hrd. exact Hd.
Qed.

Lemma strsep_None_args mem delims : strsep mem None delims = (None, mem).
Proof. reflexivity. Qed.

Lemma rd_elem_of_take payload len k c :
  (k < len)%nat -> rd payload k = c -> c <> NUL -> c ∈ take len payload.
Proof.
  intros Hk Hrd Hc. apply list_elem_of_lookup. exists k.
  rewrite lookup_take_lt by exact Hk. unfold rd in Hrd.
  destruct (payload !! k) as [x|]; cbn in Hrd; congruence.
Qed.

(** X8.  [handle_server_msg] refuses with [-EINVAL], without calling the
    message callback, every payload whose [len] bytes hold no carriage
    return, and every payload that holds neither space nor tab. *)
Theorem handle_server_msg_needs_delimiters n payload len w :
  (CR ∉ take len payload) \/
  ((SP ∉ take len payload) /\ (HT ∉ take len payload)) ->
  exists m, handle_server_msg n payload len w = Ok (- EINVAL, m, w).
Proof.
  intros Hno. unfold handle_server_msg.
  assert (Hws : NUL ∉ [SP; HT]).
  { intros H. repeat (apply elem_of_cons in H as [H|H]; [discriminate|]).
    apply elem_of_nil in H. exact H. }
  assert (Hcr : NUL ∉ [CR]).
  { intros H. repeat (apply elem_of_cons in H as [H|H]; [discriminate|]).
    apply elem_of_nil in H. exact H. }
  pose proof (sliced_start payload len) as Hs0.
  destruct (strsep (<[len := NUL]> payload) (Some 0%nat) [SP; HT])
    as [[s1|] m1] eqn:E1.
  2:{ rewrite !strsep_None_args. eexists. reflexivity. }
  destruct (sliced_strsep _ _ _ _ _ _ _ Hws Hs0 (Nat.le_0_l len) E1)
    as (Hs1 & Hp1 & k1 & Hk1 & Hin1).
  destruct Hno as [Hno|[Hsp Hht]].
  2:{ exfalso. apply elem_of_cons in Hin1 as [Hin1|Hin1].
      - apply Hsp. apply (rd_elem_of_take _ _ k1); [exact Hk1|exact Hin1|discriminate].
      - apply elem_of_cons in Hin1 as [Hin1|Hin1];
          [|apply elem_of_nil in Hin1; exact Hin1].
        apply Hht. apply (rd_elem_of_take _ _ k1); [exact Hk1|exact Hin1|discriminate]. }
  assert (Hnone : forall m p, sliced payload len m -> (p <= len)%nat ->
                    fst (strsep m (Some p) [CR]) = None).
  { intros m p Hsl Hp. destruct (strsep m (Some p) [CR]) as [[q|] m'] eqn:E;
      [|reflexivity].
    exfalso. destruct (sliced_strsep _ _ _ _ _ _ _ Hcr Hsl Hp E)
      as (_ & _ & k & Hk & Hin).
    apply elem_of_cons in Hin as [Hin|Hin]; [|apply elem_of_nil in Hin; exact Hin].
    apply Hno. apply (rd_elem_of_take _ _ k); [exact Hk|exact Hin|discriminate]. }
  destruct (strsep m1 (Some s1) [SP; HT]) as [[r|] m2] eqn:E2.
  - destruct (sliced_strsep _ _ _ _ _ _ _ Hws Hs1 Hp1 E2) as (Hs2 & Hp2 & _).
    specialize (Hnone m2 r Hs2 Hp2).
    destruct (strsep m2 (Some r) [CR]) as [[b|] m3]; [discriminate|].
    eexists. reflexivity.
  - assert (m2 = m1) as ->.
    { pose proof (strsep_loop_found m1 s1 [SP; HT] Hws [SP; HT] [] eq_refl
                    (Forall_nil_2 _)) as H2.
      unfold strsep in E2. rewrite E2 in H2. apply H2. }
    specialize (Hnone m1 s1 Hs1 Hp1).
    destruct (strsep m1 (Some s1) [CR]) as [[b|] m3]; [discriminate|].
    eexists. reflexivity.
Qed.

Lemma handle_server_msg_needs_delimiters_witness :
  (CR ∉ take 7 (lit "foo 1 5")) /\
  exists m,
    handle_server_msg Sample.client (lit "foo 1 5") 7%nat Sample.idle
    = Ok (- EINVAL, m, Sample.idle).
Proof.
  assert (Hno : CR ∉ take 7 (lit "foo 1 5")).
  { intros H. cbn in H.
    repeat (apply elem_of_cons in H as [H|H]; [discriminate|]).
    apply elem_of_nil in H. exact H. }
  split; [exact Hno|].
  apply (handle_server_msg_needs_delimiters Sample.client (lit "foo 1 5") 7
           Sample.idle (or_introl Hno)).
Defined.

(** ** What [receive_cb] can do *)

Lemma cmd_len_guarded cmd_len len :
  (sizeof_cmd_buf <? cmd_len + len)%nat = false ->
  Z.to_nat (Z.of_nat (cmd_len + len) mod 2 ^ 16) = (cmd_len + len)%nat /\
  (cmd_len + len <= sizeof_cmd_buf)%nat.
Proof.
  intros H. apply Nat.ltb_ge in H. split; [apply cmd_len_sum, H|exact H].
Qed.

(** The loop can only go wrong by writing the terminator of a line of 256
    bytes. *)
Lemma receive_loop_faults `{Json} fuel :
  forall n tmp pos cmd_buf cmd_len log w f,
    receive_loop handle_server_cmd fuel n tmp pos cmd_buf cmd_len log w
    = Fault f ->
    f = OutOfBounds sizeof_cmd_buf.
Proof.
  induction fuel as [|fuel IH]; intros n [|fr rest] pos cmd_buf cmd_len log w
    f; cbn [receive_loop]; try discriminate.
  destruct (_ <? _)%nat eqn:Hguard; [discriminate|].
  apply cmd_len_guarded in Hguard as [-> Hle].
  destruct (net_nbuf_read _ _ _) as [data [tmp1 pos1]].
  destruct (memchr _ _ _) as [i|]; [|apply IH].
  destruct (match tmp1 with [] => _ | _ :: _ => _ end) as [tmp2 pos2].
  destruct (Nat.leb_spec sizeof_cmd_buf (cmd_len + i)) as [Hge|Hlt].
  - intros [= <-]. f_equal. lia.
  - match goal with
    | |- context [handle_server_cmd n ?c ?l w] =>
        destruct (handle_server_cmd_outcome n c l w) as (m & _ & [-> | ->])
    end; cbn [mbind outcome_bind]; discriminate.
Qed.

(** X9.  For a delivery whose fragments have 16-bit lengths and whose
    application data starts inside the first fragment, [receive_cb] hands
    nothing to the network stack and nothing to the application.  It ends
    with the world as it found it, or it goes wrong in one of two ways: by
    writing at [cmd_buf[256]], or, for a buffer without fragment delivered
    with status 0, by reading through the null [buf->frags]. *)
Theorem receive_cb_outcomes `{Json} n stack buf status w :
  (forall b f rest, buf = Some b -> frags b = f :: rest ->
     short_frags (frags b) /\ (appdata b <= length f)%nat) ->
  receive_cb n stack buf status w = Ok w \/
  receive_cb n stack buf status w = Fault (OutOfBounds 256) \/
  (exists b, buf = Some b /\ frags b = [] /\ status = 0 /\
             receive_cb n stack buf status w = Fault NullDeref).
Proof.
  intros _.
  destruct (receive_cb n stack buf status w) as [w'|f] eqn:E.
  - left. f_equal. apply (receive_cb_inert _ _ _ _ _ _ E).
  - right. unfold receive_cb, receive_run in E.
    destruct buf as [b|]; [|discriminate].
    destruct (Z.eqb_spec status 0) as [->|Hs]; cbn [negb] in E; [|discriminate].
    destruct (frags b) as [|fr rest] eqn:Hfr.
    + right. exists b. cbn in E. injection E as <-. tauto.
    + left. destruct (receive_loop _ _ _ _ _ _ _ _ _) as [[[e log'] w1]|f1] eqn:El;
        cbn [mbind outcome_bind] in E; [discriminate|].
      injection E as <-. f_equal.
      apply (receive_loop_faults _ _ _ _ _ _ _ _ _ El).
Qed.

Lemma short_frags_sample :
  short_frags [lit "PI"; lit "NG" ++ CRLF ++ lit "PING" ++ CRLF].
Proof.
  apply Forall_cons_2; [cbn; lia|]. apply Forall_cons_2; [cbn; lia|].
  apply Forall_nil_2.
Defined.

Lemma receive_cb_outcomes_witness :
  let b := NetBuf [lit "PI"; lit "NG" ++ CRLF ++ lit "PING" ++ CRLF] 0 in
  short_frags (frags b) /\ (appdata b <= length (lit "PI"))%nat /\
  (receive_cb (H := Sample.json) Sample.client [] (Some b) 0 Sample.idle
   = Ok Sample.idle \/
   receive_cb (H := Sample.json) Sample.client [] (Some b) 0 Sample.idle
   = Fault (OutOfBounds 256) \/
   (exists b', Some b = Some b' /\ frags b' = [] /\ 0 = 0 /\
               receive_cb (H := Sample.json) Sample.client [] (Some b) 0
                          Sample.idle = Fault NullDeref)).
Proof.
  cbv zeta. split; [exact short_frags_sample|]. split; [cbn; lia|].
  apply (receive_cb_outcomes (H := Sample.json) Sample.client []
           (Some (NetBuf [lit "PI"; lit "NG" ++ CRLF ++ lit "PING" ++ CRLF] 0))
           0 Sample.idle).
  intros b f rest [= <-] [= <- <-]. split; [exact short_frags_sample|cbn; lia].
Defined.

(** The lines given to the dispatcher are shorter than the buffer. *)
Lemma receive_loop_short_lines handle_cmd fuel :
  forall n tmp pos cmd_buf cmd_len log w e log' w',
    Forall (fun l => (length l < sizeof_cmd_buf)%nat) log ->
    receive_loop handle_cmd fuel n tmp pos cmd_buf cmd_len log w
    = Ok (e, log', w') ->
    Forall (fun l => (length l < sizeof_cmd_buf)%nat) log'.
Proof.
  induction fuel as [|fuel IH]; intros n [|fr rest] pos cmd_buf cmd_len log w
    e log' w' Hlog; cbn [receive_loop]; try (intros [= _ <- _]; exact Hlog).
  destruct (_ <? _)%nat eqn:Hguard; [intros [= _ <- _]; exact Hlog|].
  apply cmd_len_guarded in Hguard as [-> Hle].
  destruct (net_nbuf_read _ _ _) as [data [tmp1 pos1]].
  destruct (memchr _ _ _) as [i|]; [|apply IH, Hlog].
  destruct (match tmp1 with [] => _ | _ :: _ => _ end) as [tmp2 pos2].
  destruct (Nat.leb_spec sizeof_cmd_buf (cmd_len + i)) as [Hge|Hlt];
    [discriminate|].
  assert (Hlog1 : Forall (fun l => (length l < sizeof_cmd_buf)%nat)
                    (log ++ [take (cmd_len + i)
                               (<[(cmd_len + i)%nat := NUL]>
                                  (store cmd_buf cmd_len data))])).
  { apply Forall_app. split; [exact Hlog|]. apply Forall_singleton.
    rewrite length_take. lia. }
  destruct (handle_cmd n _ _ w) as [[[ret buf2] w1]|flt];
    cbn [mbind outcome_bind]; [|discriminate].
  destruct (ret <? 0); [intros [= _ <- _]; exact Hlog1|].
  apply IH, Hlog1.
Qed.

Lemma cr_lines_no_cr s : forall cur,
    CR ∉ cur -> Forall (fun l => CR ∉ l) (cr_lines cur s).
Proof.
  induction s as [|c s IH]; intros cur Hcur; cbn [cr_lines];
    [apply Forall_nil_2|].
  destruct (Ascii.eqb_spec c CR) as [->|Hc].
  - apply Forall_cons_2; [exact Hcur|]. apply IH, not_elem_of_nil.
  - apply IH. rewrite elem_of_app, list_elem_of_singleton. intros [H|H];
      [contradiction|congruence].
Qed.

(** X10.  In every run of the loop of [receive_cb] that returns, that is,
    that does not end in the write at [cmd_buf[256]] which a line of
    exactly 256 bytes causes, and whatever the dispatcher answers, the
    lines given to the dispatcher are the first lines of the delivery, whole
    and in order, each without carriage return and shorter than 256 bytes;
    a line is never dispatched in part. *)
Theorem dispatched_lines_are_whole handle_cmd n stack b w e log w' :
  keeps_length handle_cmd ->
  short_frags (frags b) ->
  (appdata b <= length (hd [] (frags b)))%nat ->
  receive_run handle_cmd n stack (Some b) 0 w = Ok (e, log, w') ->
  log `prefix_of` cr_lines [] (stream b) /\
  Forall (fun l => (length l < 256)%nat /\ CR ∉ l) log.
Proof.
  intros Hkeep Hshort Hpos Hrun. unfold receive_run in Hrun.
  cbn [negb Z.eqb] in Hrun. unfold stream.
  destruct (frags b) as [|fr rest] eqn:Hfr; [discriminate|].
  pose proof (receive_loop_short_lines _ _ _ _ _ _ _ _ _ _ _ _
                (Forall_nil_2 _) Hrun) as Hshortl.
  apply (receive_loop_lines _ _ Hkeep) in Hrun as (ls & -> & Hls);
    [ |exact Hshort|exact Hpos|apply length_resize|lia].
  rewrite take_0 in Hls. cbn [app] in *. split; [exact Hls|].
  pose proof (cr_lines_no_cr (drop (appdata b) (concat (fr :: rest))) []
                (not_elem_of_nil _)) as Hcr.
  destruct Hls as [k Hk]. rewrite Hk in Hcr. apply Forall_app in Hcr as [Hcr _].
  rewrite Forall_forall in *. intros l Hl. split; [apply Hshortl, Hl|apply Hcr, Hl].
Qed.

Lemma dispatched_lines_are_whole_witness :
  let b := NetBuf [lit "PI"; lit "NG" ++ CRLF ++ lit "PING" ++ CRLF] 0 in
  let log := [lit "PING"] in
  receive_run (handle_server_cmd (H := Sample.json)) Sample.client [] (Some b) 0
              Sample.idle
  = Ok (Rejected, log, Sample.idle) /\
  log `prefix_of` cr_lines [] (stream b) /\
  Forall (fun l => (length l < 256)%nat /\ CR ∉ l) log.
Proof.
  cbv zeta. split; [reflexivity|].
  apply (dispatched_lines_are_whole (handle_server_cmd (H := Sample.json))
           Sample.client []
           (NetBuf [lit "PI"; lit "NG" ++ CRLF ++ lit "PING" ++ CRLF] 0)
           Sample.idle Rejected _ Sample.idle
           (handle_server_cmd_keeps_length (H := Sample.json))
           short_frags_sample).
  - cbn. lia.
  - reflexivity.
Defined.

(** With the dispatcher as it is, a line that is dispatched ends the loop. *)
Lemma receive_loop_rejects `{Json} fuel :
  forall n tmp pos cmd_buf cmd_len log w e log' w',
    receive_loop handle_server_cmd fuel n tmp pos cmd_buf cmd_len log w
    = Ok (e, log', w') ->
    (e = Rejected /\ exists l, log' = log ++ [l]) \/
    (e <> Rejected /\ log' = log).
Proof.
  induction fuel as [|fuel IH]; intros n [|f rest] pos cmd_buf cmd_len log w
    e log' w'; cbn [receive_loop];
    try (intros [= <- <- _]; right; split; [discriminate|reflexivity]).
  destruct (_ <? _)%nat;
    [intros [= <- <- _]; right; split; [discriminate|reflexivity]|].
  destruct (net_nbuf_read _ _ _) as [data [tmp1 pos1]].
  destruct (memchr _ _ _) as [i|]; [|apply IH].
  destruct (match tmp1 with [] => _ | _ :: _ => _ end) as [tmp2 pos2].
  destruct (_ <=? _)%nat; [discriminate|].
  match goal with
  | |- context [handle_server_cmd n ?c ?l w] =>
      destruct (handle_server_cmd_outcome n c l w) as (m & _ & [-> | ->])
  end; cbn [mbind outcome_bind]; intros [= <- <- _]; left;
    (split; [reflexivity|eexists; reflexivity]).
Qed.

(** X11.  In every run of [receive_cb] that returns, [handle_server_cmd]
    is called at most once for a delivery: on the first line of the
    delivery that a carriage return ends, whole.  Its negative answer ends
    the loop, so whatever follows that carriage return in the delivery is
    discarded; the world is left as it was. *)
Theorem only_first_line_is_dispatched `{Json} n stack b w e log w' :
  short_frags (frags b) ->
  (appdata b <= length (hd [] (frags b)))%nat ->
  receive_run handle_server_cmd n stack (Some b) 0 w = Ok (e, log, w') ->
  w' = w /\
  ((log = [] /\ e <> Rejected) \/
   (exists l rest,
       cr_lines [] (stream b) = l :: rest /\ log = [l] /\ e = Rejected)).
Proof.
  intros Hshort Hpos Hrun. unfold receive_run in Hrun.
  cbn [negb Z.eqb] in Hrun. unfold stream.
  destruct (frags b) as [|f rest] eqn:Hfr; [discriminate|].
  pose proof (receive_loop_inert _ _ _ _ _ _ _ _ _ _ _ Hrun) as [-> _].
  split; [reflexivity|].
  pose proof (receive_loop_rejects _ _ _ _ _ _ _ _ _ _ _ Hrun) as Hrej.
  apply (receive_loop_lines _ _ handle_server_cmd_keeps_length) in Hrun
    as (ls & -> & Hls); [ |exact Hshort|exact Hpos|apply length_resize|lia].
  rewrite take_0 in Hls. cbn [app] in *.
  destruct Hrej as [[-> [l ->]]|[Hne ->]].
  - right. destruct Hls as [k Hk]. exists l, k. cbn [app] in Hk. tauto.
  - left. tauto.
Qed.

Lemma only_first_line_is_dispatched_witness :
  let b := NetBuf [lit "PI"; lit "NG" ++ CRLF ++ lit "PING" ++ CRLF] 0 in
  receive_run (handle_server_cmd (H := Sample.json)) Sample.client [] (Some b) 0
              Sample.idle
  = Ok (Rejected, [lit "PING"], Sample.idle) /\
  cr_lines [] (stream b) = [lit "PING"; LF :: lit "PING"] /\
  Sample.idle = Sample.idle /\
  (([lit "PING"] = [] /\ Rejected <> Rejected) \/
   (exists l rest,
       cr_lines [] (stream b) = l :: rest /\ [lit "PING"] = [l] /\
       Rejected = Rejected)).
Proof.
  cbv zeta. split; [reflexivity|]. split; [reflexivity|].
  apply (only_first_line_is_dispatched (H := Sample.json) Sample.client []
           (NetBuf [lit "PI"; lit "NG" ++ CRLF ++ lit "PING" ++ CRLF] 0)
           Sample.idle Rejected [lit "PING"] Sample.idle short_frags_sample).
  - cbn. lia.
  - reflexivity.
Defined.

(** ** The INFO handler and the dispatcher, in general *)

(** X13.  [handle_server_info] leaves the payload as it is and transmits
    at most once, and only a CONNECT command: when it sends, the server
    asked for authentication without TLS, the credential callback and both
    escapes succeeded, and the bytes are
    [CONNECT {"user":"<user>","pass":"<pass>"}\r\n] with the escaped
    credentials; in every other case nothing is sent. *)
Theorem handle_server_info_sends_connect_only `{Json} n payload len w ret p' w' :
  handle_server_info n payload len w = Ok (ret, p', w') ->
  p' = payload /\
  (w' = w \/
   exists provide r user pass e1 eu e2 ep b,
     0 <= fst (json_obj_parse (bytes_at payload len)) /\
     ssl_required (snd (json_obj_parse (bytes_at payload len))) = false /\
     auth_required (snd (json_obj_parse (bytes_at payload len))) = true /\
     on_auth_required n = Some provide /\
     provide 32%nat 64%nat = (r, user, pass) /\ 0 <= r /\
     json_escape user 32%nat = (e1, eu) /\ 0 <= e1 /\
     json_escape pass 64%nat = (e2, ep) /\ 0 <= e2 /\
     ret = context_send (conn n) b /\ w' = send b w /\
     wire b = lit "CONNECT {" ++ [DQ] ++ lit "user" ++ [DQ] ++ lit ":"
                ++ [DQ] ++ eu ++ [DQ] ++ lit "," ++ [DQ] ++ lit "pass"
                ++ [DQ] ++ lit ":" ++ [DQ] ++ ep ++ [DQ] ++ lit "}" ++ CRLF).
Proof.
  unfold handle_server_info, with_payload.
  destruct (json_obj_parse (bytes_at payload len)) as [pr info]. cbn [fst snd].
  destruct (Z.ltb_spec pr 0) as [|Hpr]; [intros [= _ <- <-]; tauto|].
  destruct (ssl_required info) eqn:Hssl; [intros [= _ <- <-]; tauto|].
  destruct (auth_required info) eqn:Hauth; cbn [negb];
    [|intros [= _ <- <-]; tauto].
  destruct (on_auth_required n) as [provide|] eqn:Hcb;
    [|intros [= _ <- <-]; tauto].
  destruct (provide 32%nat 64%nat) as [[r user] pass] eqn:Hp.
  destruct (Z.ltb_spec r 0) as [|Hr]; [intros [= _ <- <-]; tauto|].
  destruct (json_escape user 32%nat) as [e1 eu] eqn:He1.
  destruct (Z.ltb_spec e1 0) as [|H1]; [intros [= _ <- <-]; tauto|].
  destruct (json_escape pass 64%nat) as [e2 ep] eqn:He2.
  destruct (Z.ltb_spec e2 0) as [|H2]; [intros [= _ <- <-]; tauto|].
  destruct (transmitv _ _ w) as [[ret1 w1]|f] eqn:Ht;
    cbn [mbind outcome_bind]; [|discriminate].
  intros [= <- <- <-]. split; [reflexivity|].
  unfold transmitv in Ht.
  destruct (nbuf_get_tx (conn n)); cbn [negb] in Ht; [|injection Ht as _ <-; tauto].
  destruct (transmitv_loop (conn n) [] _) as [r0|f] eqn:El;
    cbn [mbind outcome_bind] in Ht; [|discriminate].
  apply transmitv_loop_result in El.
  destruct r0 as [b|]; [|injection Ht as _ <-; tauto].
  destruct El as (segs & Hsegs & ->). injection Ht as <- <-.
  right. exists provide, r, user, pass, e1, eu, e2, ep, segs.
  repeat (split; [first [assumption|lia|reflexivity]|]).
  assert (E : segs = [lit "CONNECT {" ++ [DQ] ++ lit "user" ++ [DQ] ++ lit ":" ++ [DQ];
                      bytes_at eu (length eu);
                      [DQ] ++ lit "," ++ [DQ] ++ lit "pass" ++ [DQ] ++ lit ":" ++ [DQ];
                      bytes_at ep (length ep);
                      [DQ] ++ lit "}" ++ CRLF])
    by (symmetry; injection Hsegs as <-; reflexivity).
  rewrite E, !bytes_at_take, !take_ge by lia.
  unfold wire. cbn [concat]. rewrite app_nil_r, <- !app_assoc. reflexivity.
Qed.

Lemma handle_server_info_sends_connect_only_witness :
  let payload := lit "{" ++ Sample.flag_true "auth_required" ++ lit "}" in
  let b := [lit "CONNECT {" ++ [DQ] ++ lit "user" ++ [DQ] ++ lit ":" ++ [DQ];
            lit "a";
            [DQ] ++ lit "," ++ [DQ] ++ lit "pass" ++ [DQ] ++ lit ":" ++ [DQ];
            lit "b";
            [DQ] ++ lit "}" ++ CRLF] in
  handle_server_info (H := Sample.json) Sample.client payload (length payload)
                     Sample.idle
  = Ok (0, payload, send b Sample.idle) /\
  payload = payload /\
  (send b Sample.idle = Sample.idle \/
   exists provide r user pass e1 eu e2 ep b',
     0 <= fst (json_obj_parse (Json := Sample.json)
                 (bytes_at payload (length payload))) /\
     ssl_required (snd (json_obj_parse (Json := Sample.json)
                          (bytes_at payload (length payload)))) = false /\
     auth_required (snd (json_obj_parse (Json := Sample.json)
                           (bytes_at payload (length payload)))) = true /\
     on_auth_required Sample.client = Some provide /\
     provide 32%nat 64%nat = (r, user, pass) /\ 0 <= r /\
     json_escape (Json := Sample.json) user 32%nat = (e1, eu) /\ 0 <= e1 /\
     json_escape (Json := Sample.json) pass 64%nat = (e2, ep) /\ 0 <= e2 /\
     0 = context_send (conn Sample.client) b' /\
     send b Sample.idle = send b' Sample.idle /\
     wire b' = lit "CONNECT {" ++ [DQ] ++ lit "user" ++ [DQ] ++ lit ":"
                 ++ [DQ] ++ eu ++ [DQ] ++ lit "," ++ [DQ] ++ lit "pass"
                 ++ [DQ] ++ lit ":" ++ [DQ] ++ ep ++ [DQ] ++ lit "}" ++ CRLF).
Proof.
  cbv zeta. split; [reflexivity|].
  apply (handle_server_info_sends_connect_only (H := Sample.json) Sample.client
           (lit "{" ++ Sample.flag_true "auth_required" ++ lit "}")
           (length (lit "{" ++ Sample.flag_true "auth_required" ++ lit "}"))
           Sample.idle 0).
  reflexivity.
Defined.

Lemma strsep_loop_first mem delims :
  NUL ∉ delims ->
  match strsep_loop mem 0 delims delims with
  | (Some q, mem') =>
      exists i d, (i < strlen mem)%nat /\ d ∈ delims /\ rd mem i = d /\
                  mem' = <[i := NUL]> mem /\ (i < q)%nat
  | (None, mem') => mem' = mem /\ forall d, d ∈ delims -> d ∉ cstr mem
  end.
Proof.
  intros Hnul.
  pose proof (strsep_loop_found mem 0 delims Hnul delims [] eq_refl
                (Forall_nil_2 _)) as Hloop.
  destruct (strsep_loop mem 0 delims delims) as [[q|] mem'].
  - destruct Hloop as (before & d & after & i & Hdel & _ & Hchr & -> & ->).
    assert (Hin : d ∈ delims).
    { rewrite Hdel. apply elem_of_app. right. apply list_elem_of_here. }
    assert (Hd : d <> NUL) by (intros ->; contradiction).
    rewrite drop_0 in Hchr.
    destruct (strchr_Some d Hd _ _ Hchr) as (Hi & Hrd & _).
    exists i, d. cbn [Nat.add]. repeat split; try assumption. lia.
  - destruct Hloop as [-> Hall]. split; [reflexivity|].
    rewrite drop_0 in Hall. rewrite Forall_forall in Hall. exact Hall.
Qed.

(** X14.  What [handle_server_cmd] answers is decided by the delimiters of
    the line alone.  A line without space, tab and carriage return is
    answered [-EINVAL] and left as it is; any other line is answered
    [-ENOENT], with a NUL written over one of its delimiters.  The world is
    the same after as before in both cases. *)
Theorem handle_server_cmd_result `{Json} n cmd len w :
  ((SP ∉ cstr cmd) /\ (HT ∉ cstr cmd) /\ (CR ∉ cstr cmd) ->
   handle_server_cmd n cmd len w = Ok (- EINVAL, cmd, w)) /\
  ((SP ∈ cstr cmd) \/ (HT ∈ cstr cmd) \/ (CR ∈ cstr cmd) ->
   exists i,
     (i < strlen cmd)%nat /\ rd cmd i ∈ [SP; HT; CR] /\
     handle_server_cmd n cmd len w = Ok (- ENOENT, <[i := NUL]> cmd, w)).
Proof.
  assert (Hws : NUL ∉ [SP; HT]).
  { intros H0. repeat (apply elem_of_cons in H0 as [H0|H0]; [discriminate|]).
    apply elem_of_nil in H0. exact H0. }
  assert (Hcr : NUL ∉ [CR]).
  { intros H0. repeat (apply elem_of_cons in H0 as [H0|H0]; [discriminate|]).
    apply elem_of_nil in H0. exact H0. }
  unfold handle_server_cmd, strsep.
  pose proof (strsep_loop_first cmd [SP; HT] Hws) as H1.
  destruct (strsep_loop cmd 0 [SP; HT] [SP; HT]) as [[q|] m].
  - destruct H1 as (i & d & Hi & Hd & Hrd & -> & Hq).
    rewrite (cmds_find_ended cmds _ q i cmds_well_formed);
      [|lia|apply rd_insert_NUL].
    assert (Hin : d ∈ cstr cmd) by (apply elem_of_cstr; eauto).
    split.
    + intros (Hsp & Hht & _). exfalso.
      apply elem_of_cons in Hd as [->|Hd]; [contradiction|].
      apply elem_of_cons in Hd as [->|Hd]; [contradiction|].
      apply elem_of_nil in Hd. exact Hd.
    + intros _. exists i. split; [exact Hi|]. split; [|reflexivity].
      rewrite Hrd. apply elem_of_cons in Hd as [->|Hd];
        [apply list_elem_of_here|].
      apply list_elem_of_further. apply elem_of_cons in Hd as [->|Hd];
        [apply list_elem_of_here|].
      apply elem_of_nil in Hd. contradiction.
  - destruct H1 as [-> Hnone].
    pose proof (strsep_loop_first cmd [CR] Hcr) as H2.
    destruct (strsep_loop cmd 0 [CR] [CR]) as [[q|] m].
    + destruct H2 as (i & d & Hi & Hd & Hrd & -> & Hq).
      rewrite (cmds_find_ended cmds _ q i cmds_well_formed);
        [|lia|apply rd_insert_NUL].
      apply list_elem_of_singleton in Hd. subst d.
      split.
      * intros (_ & _ & Hno). exfalso. apply Hno, elem_of_cstr. eauto.
      * intros _. exists i. split; [exact Hi|]. split; [|reflexivity].
        rewrite Hrd. do 2 apply list_elem_of_further. apply list_elem_of_here.
    + destruct H2 as [-> Hnocr]. split; [reflexivity|].
      intros [Hin|[Hin|Hin]]; exfalso.
      * apply (Hnone SP); [apply list_elem_of_here|exact Hin].
      * apply (Hnone HT); [apply list_elem_of_further, list_elem_of_here|exact Hin].
      * apply (Hnocr CR); [apply list_elem_of_here|exact Hin].
Qed.

Lemma handle_server_cmd_result_witness :
  handle_server_cmd (H := Sample.json) Sample.client (lit "PING") 4 Sample.idle
  = Ok (- EINVAL, lit "PING", Sample.idle) /\
  exists i,
    (i < strlen (lit "MSG foo 1 2"))%nat /\
    rd (lit "MSG foo 1 2") i ∈ [SP; HT; CR] /\
    handle_server_cmd (H := Sample.json) Sample.client (lit "MSG foo 1 2") 11
                      Sample.idle
    = Ok (- ENOENT, <[i := NUL]> (lit "MSG foo 1 2"), Sample.idle).
Proof.
  assert (Hno : forall c, c <> "P"%char -> c <> "I"%char -> c <> "N"%char ->
                          c <> "G"%char -> c ∉ cstr (lit "PING")).
  { intros c H1 H2 H3 H4 Hin. cbn in Hin.
    repeat (apply elem_of_cons in Hin as [Hin|Hin]; [congruence|]).
    apply elem_of_nil in Hin. exact Hin. }
  split.
  - apply (proj1 (handle_server_cmd_result (H := Sample.json) Sample.client
                    (lit "PING") 4 Sample.idle)).
    repeat split; apply Hno; discriminate.
  - apply (proj2 (handle_server_cmd_result (H := Sample.json) Sample.client
                    (lit "MSG foo 1 2") 11 Sample.idle)).
    left. cbn. do 3 apply list_elem_of_further. apply list_elem_of_here.
Defined.
